(** * WHIDS: a shallow embedding of [whids.go]

    The development follows the source file top to bottom:
    - the Go library primitives [main] relies on ([strings.ToLower],
      [filepath.Ext], machine [int] arithmetic);
    - [XMLEventToGoEvtxMap];
    - the start-up part of [main] (flag checks, engine set-up, rule
      loading) as a program in a small writer/exit monad whose trace records
      every call made to the outside world;
    - the body of the per-channel goroutine;
    - the two broadcasting goroutines and the unbuffered [signals] channel
      as a labelled transition system;
    - the unsynchronised counter updates as an interleaving machine. *)

From stdpp Require Import base option list gmap strings pretty relations.
From Stdlib Require Import ZArith Ascii String Lia.

Local Open Scope string_scope.
Local Open Scope list_scope.
Local Open Scope Z_scope.

(** ** Go primitives *)

Module GoInt.

(** Go's [int] on the 64-bit targets: two's complement, silent wrap. *)
Definition intSize : Z := 64.
Definition minInt : Z := - 2 ^ (intSize - 1).
Definition maxInt : Z := 2 ^ (intSize - 1) - 1.

Definition inRange (x : Z) : Prop := minInt <= x <= maxInt.

Definition wrap (x : Z) : Z :=
  (x + 2 ^ (intSize - 1)) mod 2 ^ intSize - 2 ^ (intSize - 1).

(** [x++] *)
Definition incr (x : Z) : Z := wrap (x + 1).

End GoInt.

Module GoStrings.

(** A Go string is a sequence of bytes; [ascii] is one byte. *)
Definition byteVal (c : ascii) : N := N_of_ascii c.

(** [c < utf8.RuneSelf] *)
Definition isASCIIByte (c : ascii) : bool := (byteVal c <? 128)%N.

(** ['A' <= c && c <= 'Z'] *)
Definition isUpperByte (c : ascii) : bool :=
  ((65 <=? byteVal c) && (byteVal c <=? 90))%N.

(** ['a' <= c && c <= 'z'] *)
Definition isLowerByte (c : ascii) : bool :=
  ((97 <=? byteVal c) && (byteVal c <=? 122))%N.

(** [c += 'a' - 'A'] on an upper-case letter, identity elsewhere. *)
Definition lowerByte (c : ascii) : ascii :=
  if isUpperByte c then ascii_of_N (byteVal c + 32) else c.

Fixpoint isASCII (s : string) : bool :=
  match s with
  | EmptyString => true
  | String c s' => isASCIIByte c && isASCII s'
  end.

Fixpoint mapBytes (f : ascii -> ascii) (s : string) : string :=
  match s with
  | EmptyString => EmptyString
  | String c s' => String (f c) (mapBytes f s')
  end.

Section ToLower.

  (** [strings.Map(unicode.ToLower, s)] on a string that holds a byte
      outside ASCII: the Unicode case tables of the Go runtime are not
      part of [whids.go] and stay a parameter. *)
Variable mapUnicodeLower : string -> string.

  (** [strings.ToLower]: on ASCII input the letters A-Z are moved to
      a-z byte by byte, other input goes through the Unicode mapping. *)
Definition ToLower (s : string) : string :=
    if isASCII s then mapBytes lowerByte s else mapUnicodeLower s.

End ToLower.

End GoStrings.

Module GoFilepath.

(** [os.IsPathSeparator] on Windows, the platform [wevtapi] builds on. *)
Definition IsPathSeparator (c : ascii) : bool :=
  (Ascii.eqb c "\")%char || (Ascii.eqb c "/")%char.

(** [filepath.Ext] scans from the end of the path for the last dot of
    the last path element:
<<
    for i := len(path) - 1; i >= 0 && !os.IsPathSeparator(path[i]); i-- {
      if path[i] == '.' { return path[i:] }
    }
    return ""
>>
    [extFrom] walks the string forwards and keeps the candidate found so
    far: a dot opens a new candidate, a separator discards it. *)
Fixpoint extFrom (cand : option string) (s : string) : string :=
  match s with
  | EmptyString => default "" cand
  | String c s' =>
      if Ascii.eqb c "."%char then extFrom (Some s) s'
      else if IsPathSeparator c then extFrom None s'
      else extFrom cand s'
  end.

Definition Ext (path : string) : string := extFrom None path.

(** [filepath.Join] (which also cleans its result) is used by [main] only
    to name the file handed to the engine; it stays a parameter of the
    file-system interface below. *)

End GoFilepath.

(** ** External collaborators

    [whids.go] calls into libraries that are not part of it.  Each library
    is an interface here; [main] is written against the interfaces. *)

(** A Go [error] value is its message; [None] is the nil error. *)
Definition error : Type := string.

(** [evtx.GoEvtxMap] is [map[string]interface{}]: a reference to a table,
    or nil.  [None] is the nil map. *)
Definition GoEvtxMap (Value : Type) : Type := option (gmap string Value).

(** [make(evtx.GoEvtxMap)]: a fresh, empty, non-nil map. *)
Definition make_GoEvtxMap {Value : Type} : GoEvtxMap Value := Some ∅.

(** A pointer [*evtx.GoEvtxMap]; [None] is the nil pointer. *)
Definition EventPtr (Value : Type) : Type := option (GoEvtxMap Value).

(** [encoding/json], [wevtapi.XMLEvent] and [evtx.ToJSON]. *)
Class JSONCodec (XMLEvent JSONEvent Value : Type) : Type := {
  (** [xe.ToJSONEvent()] *)
  ToJSONEvent : XMLEvent -> JSONEvent;
  (** [json.Marshal]: the bytes, or an error *)
  json_Marshal : JSONEvent -> string + error;
  (** [json.Unmarshal(bytes, &ge)]: [ge] after the call, and the error *)
  json_Unmarshal : string -> GoEvtxMap Value -> GoEvtxMap Value * option error;
  (** [evtx.ToJSON(event)] *)
  evtx_ToJSON : EventPtr Value -> string;
  (** the [%v] rendering of an [*XMLEvent] *)
  fmt_v : XMLEvent -> string
}.

(** [engine.Engine] of gene. *)
Class GeneEngine (E Value : Type) : Type := {
  NewEngine : bool -> E;
  SetFilters : E -> list string -> list string -> E;
  Load : E -> string -> E * option error;
  Count : E -> Z;
  Match : E -> EventPtr Value -> list string * Z
}.

(** One item sent by [fswalker.Walk]; [main] reads [Dirpath] and the names
    of [Files]. *)
Record WalkItem : Type := {
  Dirpath : string;
  Files : list string
}.

(** [utils], [fsutil], [fswalker] and [filepath.Join]: what the file system
    and the network answer during one run; and the Unicode case mapping of
    the Go runtime, [strings.Map(unicode.ToLower, s)]. *)
Class World : Type := {
  HTTPGet : string -> string -> option error;
  Unzip : string -> string -> option error;
  ResolveLink : string -> string * option error;
  IsFile : string -> bool;
  IsDir : string -> bool;
  Walk : string -> list WalkItem;
  Join : string -> string -> string;
  mapUnicodeLower : string -> string
}.

(** ** Package-level state *)

(** The variables [flag.Parse] fills, plus [tagsVar] and [namesVar]. *)
Record Config : Type := {
  debug : bool;
  trace : bool;
  versionFlag : bool;
  update : bool;
  rulesPath : string;
  criticalityThresh : Z;
  tagsVar : list string;
  namesVar : list string;
  windowsChannels : list string;
  timeout : Z
}.

Definition exitFail : Z := 1.
Definition exitSuccess : Z := 0.
Definition geneRulesRepo : string :=
  "https://github.com/0xrawsec/gene-rules/archive/master.zip".
Definition databaseZip : string := "latest-database.zip".
Definition databasePath : string := "latest-database".

Definition channelAliases : gmap string string :=
  <["sysmon" := "Microsoft-Windows-Sysmon/Operational"]>
  (<["security" := "Security"]> ∅).

Definition ruleExts : list string := [".gen"; ".gene"].

(** ** Effects

    Every call [main] makes to the outside world, in program order. *)
Inductive Effect {Value : Type} : Type :=
| PrintInfo
| PrintUsage (prog : string)
| PrintDefaults
| InitLogger
| LogInfo (msg : string)
| LogError (msg : string)
| LogDebug (msg : string)
| CallHTTPGet (url file : string)
| CallUnzip (src dst : string)
| CallNewEngine (tr : bool)
| CallSetFilters (names tags : list string)
| CallResolveLink (path : string)
| CallLoad (path : string) (res : option error)
| CallCount
| CallMatch (event : EventPtr Value)
| GoTimer
| GoInterrupt
| GoWorker (winChan : string)
| Subscribe (channel : string)
| Println (line : string).
Arguments Effect : clear implicits.

(** A program either returns or has called [os.Exit]. *)
Inductive Outcome (A : Type) : Type :=
| Ret (a : A)
| Exit (code : Z).
Arguments Ret {A} a.
Arguments Exit {A} code.

Module Proc.

Section Monad.
Context {Value : Type}.

Definition t (A : Type) : Type := list (Effect Value) * Outcome A.

Definition ret {A} (a : A) : t A := ([], Ret a).

Definition bind {A B} (m : t A) (f : A -> t B) : t B :=
  match m with
  | (tr, Ret a) => let '(tr', r) := f a in (tr ++ tr', r)
  | (tr, Exit c) => (tr, Exit c)
  end.

Definition emit (e : Effect Value) : t unit := ([e], Ret tt).

(** [os.Exit(code)] *)
Definition exit {A} (code : Z) : t A := ([], Exit code).

(** [if c { body }] *)
Definition when (c : bool) (body : t unit) : t unit :=
  if c then body else ret tt.

(** [for _, x := range xs { body }] threading the loop state *)
Fixpoint foldM {A S} (body : S -> A -> t S) (s : S) (xs : list A) : t S :=
  match xs with
  | [] => ret s
  | x :: xs' => bind (body s x) (fun s' => foldM body s' xs')
  end.

Definition trace_of {A} (m : t A) : list (Effect Value) := fst m.
Definition outcome_of {A} (m : t A) : Outcome A := snd m.

End Monad.

End Proc.

Declare Scope proc_scope.
Delimit Scope proc_scope with proc.
Notation "x <- m ;; k" := (Proc.bind m (fun x => k))
  (at level 100, m at next level, right associativity) : proc_scope.
Notation "m ;;; k" := (Proc.bind m (fun _ => k))
  (at level 100, right associativity) : proc_scope.

(** ** The program *)

Section Whids.

Context {XMLEvent JSONEvent Value E : Type}.
Context `{!JSONCodec XMLEvent JSONEvent Value, !GeneEngine E Value, !World}.

Local Open Scope proc_scope.

Local Abbreviation Proc := (Proc.t (Value := Value)).
Local Abbreviation emit := (Proc.emit (Value := Value)).

(** *** [XMLEventToGoEvtxMap] (lines 32-43) *)
Definition XMLEventToGoEvtxMap (xe : XMLEvent) : EventPtr Value * option error :=
  let ge := make_GoEvtxMap in
  match json_Marshal (ToJSONEvent xe) with
  | inr err => (Some ge, Some err)
  | inl bytes =>
      let '(ge, err) := json_Unmarshal bytes ge in
      match err with
      | Some err => (Some ge, Some err)
      | None => (Some ge, None)
      end
  end.

(** *** [main], start-up (lines 120-199) *)

(** [log.LogErrorAndExit(err, code)] *)
Definition LogErrorAndExit {A} (err : error) (code : Z) : Proc A :=
  emit (LogError err) ;;; Proc.exit code.

(** [if err != nil { log.LogErrorAndExit(wrap(err), exitFail) }] *)
Definition exitOnError (res : option error) (wrapErr : error -> error) : Proc unit :=
  match res with
  | Some err => LogErrorAndExit (wrapErr err) exitFail
  | None => Proc.ret tt
  end.

(** Lines 132-144: the [-u] branch; the result is [rulesPath] afterwards. *)
Definition updateDatabase (cfg : Config) : Proc string :=
  if update cfg then
    emit (LogInfo ("Downloading rules from: " +:+ geneRulesRepo)) ;;;
    emit (CallHTTPGet geneRulesRepo databaseZip) ;;;
    exitOnError (HTTPGet geneRulesRepo databaseZip)
      (fun err => "Could not download latest gene-rules: " +:+ err) ;;;
    emit (CallUnzip databaseZip databasePath) ;;;
    exitOnError (Unzip databaseZip databasePath)
      (fun err => "Could not unzip latest gene-rules: " +:+ err) ;;;
    Proc.ret databasePath
  else Proc.ret (rulesPath cfg).

(** Lines 153 and 164-166: the set holding [ruleExts]. *)
Definition setRuleExts : gset string := list_to_set ruleExts.

(** [setRuleExts.Contains(ext)] *)
Definition Contains (s : gset string) (x : string) : bool := bool_decide (x ∈ s).

(** Lines 184-193: one file of one walk item. *)
Definition loadWalkFile (dirpath : string) (e : E) (fi : string) : Proc E :=
  let ext := GoFilepath.Ext fi in
  let rulefile := Join dirpath fi in
  emit (LogDebug ext) ;;;
  if Contains setRuleExts ext then
    let '(e', err) := Load e rulefile in
    emit (CallLoad rulefile err) ;;;
    match err with
    | Some err => emit (LogError ("Error loading " +:+ rulefile +:+ ": " +:+ err))
    | None => Proc.ret tt
    end ;;;
    Proc.ret e'
  else Proc.ret e.

(** Lines 183-194: [for _, fi := range wi.Files]. *)
Definition loadWalkItem (e : E) (wi : WalkItem) : Proc E :=
  Proc.foldM (loadWalkFile (Dirpath wi)) e (Files wi).

(** Lines 182-195: [for wi := range fswalker.Walk(realPath)]. *)
Definition loadDir (e : E) (realPath : string) : Proc E :=
  Proc.foldM loadWalkItem e (Walk realPath).

(** Lines 177-180: the rule path is one file. *)
Definition loadFile (e : E) (realPath : string) : Proc E :=
  let '(e', err) := Load e realPath in
  emit (CallLoad realPath err) ;;;
  match err with
  | Some err => emit (LogError err)
  | None => Proc.ret tt
  end ;;;
  Proc.ret e'.

(** Lines 175-198: the [switch]. *)
Definition loadRules (e : E) (rulesPath realPath : string) : Proc E :=
  if IsFile realPath then loadFile e realPath
  else if IsDir realPath then loadDir e realPath
  else LogErrorAndExit ("Cannot resolve " +:+ rulesPath +:+ " to file or dir") exitFail.

(** Lines 146-199: the checks, the engine set-up and the rule loading,
  with [rulesPath] as the [-u] branch left it. *)
Definition configure (cfg : Config) (rulesPath : string) : Proc E :=
  (* Control parameters *)
  Proc.when (String.eqb rulesPath "")
    (LogErrorAndExit "No rule file to load" exitFail) ;;;
  (* Initialization *)
  emit (CallNewEngine (trace cfg)) ;;;
  let e : E := NewEngine (trace cfg) in
  let tags := tagsVar cfg in
  let names := namesVar cfg in
  (* Validation *)
  Proc.when ((0 <? List.length tags)%nat && (0 <? List.length names)%nat)
    (LogErrorAndExit "Cannot search by tags and names at the same time" exitFail) ;;;
  emit (CallSetFilters names tags) ;;;
  let e := SetFilters e names tags in
  (* Loading the rules *)
  emit (CallResolveLink rulesPath) ;;;
  let '(realPath, err) := ResolveLink rulesPath in
  exitOnError err (fun err => err) ;;;
  e <- loadRules e rulesPath realPath ;;
  emit CallCount ;;;
  emit (LogInfo ("Loaded " +:+ pretty (Count e) +:+ " rules")) ;;;
  Proc.ret e.

(** Lines 120-199: [main] from the point where [flag.Parse] (line 118) has
    returned and filled the variables; [whids] below adds the way out that
    [flag.Parse] itself can take. *)
Definition startup (cfg : Config) : Proc E :=
  (* Print version information and exit *)
  Proc.when (versionFlag cfg) (emit PrintInfo ;;; Proc.exit exitSuccess) ;;;
  (* Enabling debug if needed *)
  Proc.when (debug cfg) (emit InitLogger) ;;;
  (* Update Database *)
  rulesPath <- updateDatabase cfg ;;
  configure cfg rulesPath.

(** *** [main], goroutines (lines 202-254) *)

(** The [go] statements in program order: the timer goroutine when
    [timeout > 0], the interrupt goroutine, one worker per channel. *)
Definition spawn (cfg : Config) : Proc unit :=
  Proc.when (0 <? timeout cfg) (emit GoTimer) ;;;
  emit GoInterrupt ;;;
  Proc.foldM (fun _ winChan => emit (GoWorker winChan)) tt (windowsChannels cfg).

Definition main (cfg : Config) : Proc E :=
  e <- startup cfg ;;
  spawn cfg ;;;
  Proc.ret e.

(** *** The worker goroutine (lines 231-253) *)

(** Lines 234-236. *)
Definition resolveAlias (winChan : string) : string :=
  match channelAliases !! GoStrings.ToLower mapUnicodeLower winChan with
  | Some c => c
  | None => winChan
  end.

(** [eventCnt] and [alertsCnt], the two variables the goroutines share. *)
Record Counters : Type := {
  eventCnt : Z;
  alertsCnt : Z
}.

(** Lines 240-251: the body of [for xe := range ec], with [e.Match] taken
    by the contract of the engine: a call that returns and writes neither to
    the engine nor to the event.  [handleEventGo] below is the same body
    without this contract. *)
Definition handleEvent (e : E) (thresh : Z) (cnt : Counters) (xe : XMLEvent)
  : Proc Counters :=
  let '(event, err) := XMLEventToGoEvtxMap xe in
  match err with
  | Some err =>
      emit (LogError ("Failed to convert event: " +:+ err)) ;;;
      emit (LogDebug ("Error data: " +:+ fmt_v xe))
  | None => Proc.ret tt
  end ;;;
  emit (CallMatch event) ;;;
  let '(n, crit) := Match e event in
  alerts <-
    (if (0 <? List.length n)%nat then
       if thresh <=? crit then
         emit (Println (evtx_ToJSON event)) ;;;
         Proc.ret (GoInt.incr (alertsCnt cnt))
       else Proc.ret (alertsCnt cnt)
     else Proc.ret (alertsCnt cnt)) ;;
  Proc.ret {| eventCnt := GoInt.incr (eventCnt cnt); alertsCnt := alerts |}.

(** Lines 231-253 run by one goroutine alone; [events] is what the
    channel [ec] delivers before it is closed. *)
Definition worker (e : E) (thresh : Z) (winChan : string)
    (events : list XMLEvent) (cnt : Counters) : Proc Counters :=
  let winChan := resolveAlias winChan in
  emit (LogInfo ("Listening on Windows channel: " +:+ winChan)) ;;;
  emit (Subscribe winChan) ;;;
  Proc.foldM (handleEvent e thresh) cnt events.

(** Lines 258-261 without the rate line, whose value is a floating-point
    quotient over wall-clock time. *)
Definition report (e : E) (cnt : Counters) : Proc unit :=
  emit (LogInfo ("Count Event Scanned: " +:+ pretty (eventCnt cnt))) ;;;
  emit (LogInfo ("Alerts Reported: " +:+ pretty (alertsCnt cnt))) ;;;
  emit CallCount ;;;
  emit (LogInfo ("Count Rules Used (loaded + generated): " +:+ pretty (Count e))).

End Whids.

(** ** The command line (lines 102-118) *)

(** The eight flags [main] registers.  [tagsVar] and [namesVar] (lines
    77-78) are bound to no flag and assigned nowhere in the file. *)
Record Flags : Type := {
  flag_c : list string;
  flag_timeout : Z;
  flag_trace : bool;
  flag_d : bool;
  flag_v : bool;
  flag_u : bool;
  flag_r : string;
  flag_t : Z
}.

(** The package variables once [flag.Parse] has accepted the command line:
    the two filter lists keep their zero value. *)
Definition parsed (fl : Flags) : Config := {|
  debug := flag_d fl; trace := flag_trace fl; versionFlag := flag_v fl;
  update := flag_u fl; rulesPath := flag_r fl;
  criticalityThresh := flag_t fl;
  tagsVar := []; namesVar := [];
  windowsChannels := flag_c fl; timeout := flag_timeout fl
|}.

(** What [flag.Parse] does with [os.Args]: it accepts the line and fills the
    flags, or it calls [flag.Usage], on [-h] and on an argument it refuses
    (a flag that is not registered, a value that does not parse).  [prog] is
    [filepath.Base(os.Args[0])]. *)
Inductive CommandLine : Type :=
| Accepted (fl : Flags)
| Refused (prog : string).

Section Program.

Context {Value E : Type}.
Context `{!GeneEngine E Value, !World}.

(** Lines 111-116: the [flag.Usage] that [main] installs. *)
Definition usage (prog : string) : Proc.t (Value := Value) E :=
  (Proc.emit PrintInfo ;;;
   Proc.emit (PrintUsage prog) ;;;
   Proc.emit PrintDefaults ;;;
   Proc.exit exitSuccess)%proc.

(** [main] from its first line. *)
Definition whids (cl : CommandLine) : Proc.t (Value := Value) E :=
  match cl with
  | Refused prog => usage prog
  | Accepted fl => main (parsed fl)
  end.

End Program.

(** ** The worker loop with the engine call as Go makes it (lines 239-252)

    [handleEvent] above takes [e.Match] by the contract of the engine: a
    call that returns and leaves its arguments alone.  The call itself is a
    method on the shared [*engine.Engine] that receives the pointer
    [event]: it can write to the engine and to the map behind the pointer
    before line 247 prints it, and it can panic; the goroutine has no
    [recover]. *)

(** How the call [e.Match(event)] ends. *)
Inductive MatchCall (E Value : Type) : Type :=
| Panics
| Returns (e' : E) (after : EventPtr Value) (n : list string) (crit : Z).
Arguments Panics {E Value}.
Arguments Returns {E Value} e' after n crit.

Class GeneRuntime (E Value : Type) : Type := {
  MatchGo : E -> EventPtr Value -> MatchCall E Value
}.

(** The exit status of a Go program that ends on a panic. *)
Definition exitPanic : Z := 2.

Section WorkerGo.

Context {XMLEvent JSONEvent Value E : Type}.
Context `{!JSONCodec XMLEvent JSONEvent Value, !GeneRuntime E Value, !World}.

Local Open Scope proc_scope.

(** Lines 241-244: what a failed conversion writes to the log. *)
Definition conversionLog (xe : XMLEvent) : list (Effect Value) :=
  match (XMLEventToGoEvtxMap xe).2 with
  | Some err => [LogError ("Failed to convert event: " +:+ err);
                 LogDebug ("Error data: " +:+ fmt_v xe)]
  | None => []
  end.

(** Lines 240-251 with the engine and the counters as loop state. *)
Definition handleEventGo (thresh : Z) (st : E * Counters) (xe : XMLEvent)
  : Proc.t (Value := Value) (E * Counters) :=
  let '(e, cnt) := st in
  let '(event, err) := XMLEventToGoEvtxMap xe in
  match err with
  | Some err =>
      Proc.emit (LogError ("Failed to convert event: " +:+ err)) ;;;
      Proc.emit (LogDebug ("Error data: " +:+ fmt_v xe))
  | None => Proc.ret tt
  end ;;;
  Proc.emit (CallMatch event) ;;;
  match MatchGo e event with
  | Panics => Proc.exit exitPanic
  | Returns e' after n crit =>
      alerts <-
        (if (0 <? List.length n)%nat then
           if thresh <=? crit then
             Proc.emit (Println (evtx_ToJSON after)) ;;;
             Proc.ret (GoInt.incr (alertsCnt cnt))
           else Proc.ret (alertsCnt cnt)
         else Proc.ret (alertsCnt cnt)) ;;
      Proc.ret (e', {| eventCnt := GoInt.incr (eventCnt cnt); alertsCnt := alerts |})
  end.

(** Lines 231-253 run by one goroutine alone. *)
Definition workerGo (e : E) (thresh : Z) (winChan : string)
    (events : list XMLEvent) (cnt : Counters)
  : Proc.t (Value := Value) (E * Counters) :=
  let winChan := resolveAlias winChan in
  Proc.emit (LogInfo ("Listening on Windows channel: " +:+ winChan)) ;;;
  Proc.emit (Subscribe winChan) ;;;
  Proc.foldM (handleEventGo thresh) (e, cnt) events.

End WorkerGo.


(** ** The shutdown broadcast (lines 202-222)

    [signals] is made by [make(chan bool)]: it has no buffer, so a send
    completes only together with a receive.  Each broadcaster goroutine
    waits for its trigger and then runs
    [for _ = range []string(windowsChannels) { signals <- true }]. *)

Module Shutdown.

Inductive Watcher : Type :=
| Absent                 (* never started: [timeout > 0] was false *)
| Waiting                (* in [time.Sleep] or in [<-osSignals] *)
| Sending (left : nat).  (* in the loop, [left] sends to go; returned at 0 *)

Inductive Phase : Type :=
| Listening
| Done.

(** A worker goroutine as the broadcast sees it; [tokens] counts the stop
    tokens its subscription has taken from [signals]. *)
Record WorkerSt : Type := {
  phase : Phase;
  tokens : nat
}.

Record State : Type := {
  timerW : Watcher;
  interruptW : Watcher;
  workers : list WorkerSt
}.

Inductive Source : Type :=
| Timer
| Signal.

#[global] Instance Source_eq_dec : EqDecision Source.
Proof. solve_decision. Defined.

Inductive Action : Type :=
| Deadline                          (* [time.Sleep] returns *)
| Interrupt                         (* [os.Interrupt] arrives on [osSignals] *)
| Deliver (from : Source) (i : nat) (* one send meets the receive of worker [i] *)
| Closed (i : nat).                 (* the subscription of worker [i] ends by itself *)

Definition watcher (src : Source) (s : State) : Watcher :=
  match src with
  | Timer => timerW s
  | Signal => interruptW s
  end.

Definition setWatcher (src : Source) (w : Watcher) (s : State) : State :=
  match src with
  | Timer => {| timerW := w; interruptW := interruptW s; workers := workers s |}
  | Signal => {| timerW := timerW s; interruptW := w; workers := workers s |}
  end.

Definition setWorker (i : nat) (w : WorkerSt) (s : State) : State :=
  {| timerW := timerW s; interruptW := interruptW s;
     workers := <[i := w]> (workers s) |}.

(** Modelled from the spec: the receiving end of [signals] is inside
    [wevtapi.GetAllEventsFromChannel], which is not part of [whids.go]; the
    Event Source contract says the subscription ends its sequence once a
    stop token is observed.  The worker's [for xe := range ec] then ends. *)
Definition receive (w : WorkerSt) : WorkerSt :=
  {| phase := Done; tokens := S (tokens w) |}.

(** Modelled from the spec: the subscription may also close on its own
    (source exhausted); no token is taken. *)
Definition close (w : WorkerSt) : WorkerSt :=
  {| phase := Done; tokens := tokens w |}.

Definition isListening (w : WorkerSt) : bool :=
  match phase w with
  | Listening => true
  | Done => false
  end.

(** Lines 205-212 start the timer goroutine only when [timeout > 0]; lines
    217-222 always start the interrupt goroutine; lines 227-254 start one
    worker per entry of [windowsChannels]. *)
Definition init (cfg : Config) : State :=
  {| timerW := if 0 <? timeout cfg then Waiting else Absent;
     interruptW := Waiting;
     workers := replicate (List.length (windowsChannels cfg))
                  {| phase := Listening; tokens := 0 |} |}.

(** One atomic move of the system; [n] is [len(windowsChannels)]. *)
Definition act (n : nat) (a : Action) (s : State) : option State :=
  match a with
  | Deadline =>
      match timerW s with
      | Waiting => Some (setWatcher Timer (Sending n) s)
      | _ => None
      end
  | Interrupt =>
      match interruptW s with
      | Waiting => Some (setWatcher Signal (Sending n) s)
      | _ => None
      end
  | Deliver src i =>
      match watcher src s, workers s !! i with
      | Sending (S k), Some w =>
          if isListening w
          then Some (setWorker i (receive w) (setWatcher src (Sending k) s))
          else None
      | _, _ => None
      end
  | Closed i =>
      match workers s !! i with
      | Some w => if isListening w then Some (setWorker i (close w) s) else None
      | None => None
      end
  end.

Definition step (n : nat) (s s' : State) : Prop :=
  exists a, act n a s = Some s'.

Fixpoint exec (n : nat) (acts : list Action) (s : State) : option State :=
  match acts with
  | [] => Some s
  | a :: acts' =>
      match act n a s with
      | Some s' => exec n acts' s'
      | None => None
      end
  end.

Definition reachable (cfg : Config) (s : State) : Prop :=
  rtc (step (List.length (windowsChannels cfg))) (init cfg) s.

(** A trigger has fired: some broadcaster is past its wait. *)
Definition fired (s : State) : Prop :=
  exists src k, watcher src s = Sending k.

Definition listening (s : State) : nat :=
  List.length (filter (fun w => isListening w = true) (workers s)).

Definition delivered (s : State) : nat :=
  foldr (fun w acc => (tokens w + acc)%nat) 0%nat (workers s).

(** Sends a broadcaster still has to make. *)
Definition pending (w : Watcher) : nat :=
  match w with
  | Sending k => k
  | _ => 0%nat
  end.

Definition waiting (w : Watcher) : nat :=
  match w with
  | Waiting => 1%nat
  | _ => 0%nat
  end.

(** What is left to happen: triggers that can still fire and workers that
    can still stop. *)
Definition measure (s : State) : nat :=
  (waiting (timerW s) + waiting (interruptW s) + listening s)%nat.

(** A worker holds at most one token, and none while it listens. *)
Definition wellFormed (w : WorkerSt) : Prop :=
  (tokens w <= 1)%nat /\ (isListening w = true -> tokens w = 0%nat).

(** There are [n] workers, each well formed, and a broadcaster in its loop
    has at least as many sends left as there are listening workers. *)
Definition invariant (n : nat) (s : State) : Prop :=
  List.length (workers s) = n /\
  Forall wellFormed (workers s) /\
  (forall src k, watcher src s = Sending k -> (listening s <= k)%nat).

End Shutdown.

(** ** The shared counters under interleaving (lines 203, 245-251)

    [eventCnt] is a plain [int] captured by every worker closure, and
    [eventCnt++] is a read of the variable followed by a write of the
    incremented value; nothing orders the reads and writes of different
    goroutines. *)

Module Race.

(** One worker: the events it still has to count, and the value it has read
    from [eventCnt] when it is between the read and the write. *)
Record Thread : Type := {
  todo : nat;
  reg : option Z
}.

Record Memory : Type := {
  eventCnt : Z;
  threads : list Thread
}.

(** A worker with [k] events to count, outside of an increment. *)
Definition fresh (k : nat) : Thread := {| todo := k; reg := None |}.

(** [n] workers with [k] events each, none of which matches a rule. *)
Definition start (n k : nat) : Memory :=
  {| eventCnt := 0; threads := replicate n (fresh k) |}.

(** Worker [i] makes its next memory access. *)
Definition stepThread (i : nat) (s : Memory) : option Memory :=
  match threads s !! i with
  | Some {| todo := S t; reg := None |} =>
      Some {| eventCnt := eventCnt s;
              threads := <[i := {| todo := S t; reg := Some (eventCnt s) |}]> (threads s) |}
  | Some {| todo := S t; reg := Some v |} =>
      Some {| eventCnt := GoInt.incr v;
              threads := <[i := {| todo := t; reg := None |}]> (threads s) |}
  | _ => None
  end.

(** A schedule names the worker that moves at each step. *)
Fixpoint run (sched : list nat) (s : Memory) : option Memory :=
  match sched with
  | [] => Some s
  | i :: sched' =>
      match stepThread i s with
      | Some s' => run sched' s'
      | None => None
      end
  end.

Definition finished (s : Memory) : bool :=
  forallb (fun th => (todo th =? 0)%nat && bool_decide (reg th = None)) (threads s).

(** The schedule in which worker [i] does its read and its write [k] times
    back to back: what a lock around [eventCnt++] would enforce. *)
Fixpoint serialThread (i k : nat) : list nat :=
  match k with
  | O => []
  | S k' => i :: i :: serialThread i k'
  end.

Fixpoint serialFrom (i n k : nat) : list nat :=
  match n with
  | O => []
  | S n' => serialThread i k ++ serialFrom (S i) n' k
  end.

End Race.

(** ** Vocabulary of the statements *)

Module Spec.

(** The upper-case partner of a lower-case ASCII letter. *)
Definition upperOf (c : ascii) : ascii :=
  ascii_of_N (GoStrings.byteVal c - 32).

(** [s] spells [k] up to the case of its letters: byte by byte, [s] has
    either the byte of [k] or, where [k] has a lower-case letter, the
    matching capital. *)
Fixpoint caseVariant (k s : string) : bool :=
  match k, s with
  | EmptyString, EmptyString => true
  | String a k', String b s' =>
      (Ascii.eqb b a || (GoStrings.isLowerByte a && Ascii.eqb b (upperOf a)))
      && caseVariant k' s'
  | _, _ => false
  end.

(** [s] is ASCII text without capital letters. *)
Fixpoint isLowerKey (s : string) : bool :=
  match s with
  | EmptyString => true
  | String c s' =>
      GoStrings.isASCIIByte c && negb (GoStrings.isUpperByte c) && isLowerKey s'
  end.

(** The match result that makes [main] report an alert. *)
Definition alerting (thresh : Z) (res : list string * Z) : bool :=
  negb (bool_decide (res.1 = [])) && bool_decide (thresh <= res.2).

(** The files of a walk, as the paths [main] builds for them. *)
Definition walkFiles `{!World} (items : list WalkItem) : list (string * string) :=
  items ≫= (fun wi => (fun fi => (fi, Join (Dirpath wi) fi)) <$> Files wi).

(** The extension is one of [ruleExts]. *)
Definition allowListed (name : string) : bool :=
  bool_decide (GoFilepath.Ext name ∈ ruleExts).

(** The rule files of a walk: the paths of the allow-listed files. *)
Definition ruleFiles `{!World} (items : list WalkItem) : list string :=
  snd <$> filter (fun f => allowListed f.1 = true) (walkFiles items).

(** The paths handed to [e.Load], in call order, with the results. *)
Definition loadCalls {Value} (tr : list (Effect Value)) : list (string * option error) :=
  omap (fun ev => match ev with CallLoad p r => Some (p, r) | _ => None end) tr.

(** Effects that use the engine after its construction. *)
Definition usesEngine {Value} (ev : Effect Value) : bool :=
  match ev with
  | CallSetFilters _ _ | CallLoad _ _ | CallCount | CallMatch _ => true
  | _ => false
  end.

Definition constructsEngine {Value} (ev : Effect Value) : bool :=
  match ev with
  | CallNewEngine _ => true
  | _ => false
  end.

(** Effects of monitoring: a goroutine is started or a source is opened. *)
Definition monitors {Value} (ev : Effect Value) : bool :=
  match ev with
  | GoTimer | GoInterrupt | GoWorker _ | Subscribe _ => true
  | _ => false
  end.

Definition isLogError {Value} (ev : Effect Value) : bool :=
  match ev with
  | LogError _ => true
  | _ => false
  end.

(** [s] starts with [p]. *)
Fixpoint hasPrefix (p s : string) : bool :=
  match p, s with
  | EmptyString, _ => true
  | String a p', String b s' => Ascii.eqb a b && hasPrefix p' s'
  | String _ _, EmptyString => false
  end.

(** [sub] occurs inside [s]. *)
Fixpoint contains (sub s : string) : bool :=
  hasPrefix sub s ||
  match s with
  | EmptyString => false
  | String _ s' => contains sub s'
  end.

(** The events of a stream whose match result raises an alert. *)
Definition alertEvents {XMLEvent JSONEvent Value E : Type}
    `{!JSONCodec XMLEvent JSONEvent Value, !GeneEngine E Value}
    (e : E) (thresh : Z) (events : list XMLEvent) : list XMLEvent :=
  filter (fun xe => alerting thresh (Match e (XMLEventToGoEvtxMap xe).1) = true) events.

Definition isCallMatch {Value} (ev : Effect Value) : bool :=
  match ev with
  | CallMatch _ => true
  | _ => false
  end.

(** The engine contract behind "one rule per file": a file that parses
    loads without error and adds one rule, a file that does not parse
    reports an error and adds none. *)
Definition oneRulePerFile {E Value : Type} `{!GeneEngine E Value}
    (parses : string -> bool) : Prop :=
  forall (e : E) p,
    (parses p = true -> (Load e p).2 = None /\ Count (Load e p).1 = Count e + 1) /\
    (parses p = false -> (Load e p).2 <> None /\ Count (Load e p).1 = Count e).

(** The effects of the rule-loading loop. *)
Definition isLoadEffect {Value} (ev : Effect Value) : bool :=
  match ev with
  | LogDebug _ | CallLoad _ _ | LogError _ => true
  | _ => false
  end.

Definition failed (c : string * option error) : bool :=
  match c.2 with
  | Some _ => true
  | None => false
  end.

(** What a stretch of the loading loop did: the engine went from [e] to
    [e'], the trace [tr] holds load effects only, its [e.Load] calls are
    for [paths] in this order, each failed call has its error line, and
    under the one-rule-per-file contract the rule count grew by the number
    of files that parse. *)
Definition loaded {E Value : Type} `{!GeneEngine E Value}
    (e : E) (tr : list (Effect Value)) (e' : E) (paths : list string) : Prop :=
  (loadCalls tr).*1 = paths /\
  Forall (fun ev => isLoadEffect ev = true) tr /\
  List.length (filter (fun ev => isLogError ev = true) tr)
    = List.length (filter (fun c => failed c = true) (loadCalls tr)) /\
  (forall parses, oneRulePerFile parses ->
     Count e' = Count e
                + Z.of_nat (List.length (filter (fun p => parses p = true) paths))).

End Spec.

(** ** Sample collaborators

    Small implementations of the interfaces, to run the program on. *)

Module Sample.

(** What [json.Unmarshal] does for one key of an object: a nil map is
    allocated first. *)
Definition store (k v : string) (ge : GoEvtxMap string) : GoEvtxMap string :=
  let m : gmap string string := match ge with Some m => m | None => ∅ end in
  Some (<[k := v]> m).

(** A raw event is its text.  The empty text cannot be marshalled, and the
    text ["mismatch"] fails in [json.Unmarshal] after one key was stored. *)
Definition codec : JSONCodec string string string := {|
  ToJSONEvent := fun xe => xe;
  json_Marshal := fun je =>
    if String.eqb je "" then inr "json: unsupported value" else inl je;
  json_Unmarshal := fun bytes ge =>
    if String.eqb bytes "mismatch"
    then (store "Partial" bytes ge, Some "json: cannot unmarshal")
    else (store "Raw" bytes ge, None);
  evtx_ToJSON := fun ev =>
    match ev with
    | Some (Some m) => match m !! "Raw" with Some raw => raw | None => "{}" end
    | _ => "null"
    end;
  fmt_v := fun xe => xe
|}.

(** An engine that keeps the list of loaded files, one rule per file; the
    files in [broken] do not parse; [rule] decides the matches. *)
Definition engine (broken : list string)
    (rule : EventPtr string -> list string * Z) : GeneEngine (list string) string := {|
  NewEngine := fun _ => [];
  SetFilters := fun e _ _ => e;
  Load := fun e p =>
    if bool_decide (p ∈ broken)
    then (e, Some ("invalid rule file"))
    else (p :: e, None);
  Count := fun e => Z.of_nat (List.length e);
  Match := fun _ ev => rule ev
|}.

(** A file system with the regular files [files] and the directory trees
    [dirs], each given with the items its walk sends. *)
Definition world (files : list string) (dirs : list (string * list WalkItem)) : World := {|
  HTTPGet := fun _ _ => None;
  Unzip := fun _ _ => None;
  ResolveLink := fun p => (p, None);
  IsFile := fun p => bool_decide (p ∈ files);
  IsDir := fun p => bool_decide (p ∈ dirs.*1);
  Walk := fun p => default [] (snd <$> find (fun d => String.eqb d.1 p) dirs);
  Join := fun d f => d +:+ "\" +:+ f;
  mapUnicodeLower := fun s => s
|}.

(** The rule that matches the event text ["mimikatz"] with criticality 7. *)
Definition mimikatzRule (ev : EventPtr string) : list string * Z :=
  match ev with
  | Some (Some m) =>
      if bool_decide (m !! "Raw" = Some "mimikatz") then (["Mimikatz"], 7) else ([], 0)
  | _ => ([], 0)
  end.

(** A rule without conditions: it matches every event. *)
Definition catchAllRule (ev : EventPtr string) : list string * Z :=
  (["CatchAll"], 10).

Definition noRule (ev : EventPtr string) : list string * Z := ([], 0).

Definition config (path : string) : Config := {|
  debug := false; trace := false; versionFlag := false; update := false;
  rulesPath := path; criticalityThresh := 5;
  tagsVar := []; namesVar := [];
  windowsChannels := ["sysmon"]; timeout := 0
|}.

(** Two channels and a deadline. *)
Definition twoChannels : Config := {|
  debug := false; trace := false; versionFlag := false; update := false;
  rulesPath := "rules"; criticalityThresh := 5;
  tagsVar := []; namesVar := [];
  windowsChannels := ["sysmon"; "security"]; timeout := 60
|}.

(** Scenario A: a directory with [a.gen], [b.gene] and [c.txt]. *)
Definition rulesDir : list WalkItem :=
  [ {| Dirpath := "rules"; Files := ["a.gen"; "b.gene"; "c.txt"] |} ].

(** A directory where one of the rule files does not parse. *)
Definition mixedDir : list WalkItem :=
  [ {| Dirpath := "rules"; Files := ["a.gen"; "broken.gen"; "notes.txt"] |};
    {| Dirpath := "rules\sub"; Files := ["b.gene"] |} ].

Definition rulesWorld : World := world [] [("rules", rulesDir)].
Definition mixedWorld : World := world [] [("rules", mixedDir)].
Definition emptyWorld : World := world [] [].

(** An engine without rules that match, and one for [mixedDir]. *)
Definition plainEngine : GeneEngine (list string) string := engine [] noRule.
Definition pickyEngine : GeneEngine (list string) string :=
  engine ["rules\broken.gen"] noRule.

(** Scenario D: ten events, three of which are ["mimikatz"]. *)
Definition stream : list string :=
  ["boot"; "mimikatz"; "logon"; "logon"; "mimikatz";
   "dns"; "dns"; "mimikatz"; "logoff"; "shutdown"].

End Sample.

(** ** The rest of [whids.go] *)

Module Further.

Definition tab : string := String "009"%char "".
Definition newline : string := String "010"%char "".

(** [strings.Join(elems, sep)] *)
Fixpoint Join_strings (elems : list string) (sep : string) : string :=
  match elems with
  | [] => ""
  | x :: rest =>
      match rest with
      | [] => x
      | _ :: _ => x +:+ sep +:+ Join_strings rest sep
      end
  end.

(** [fmt.Sprintf("\t\t%s : %s", alias, channel)] (line 96) *)
Definition aliasLine (alias channel : string) : string :=
  tab +:+ tab +:+ alias +:+ " : " +:+ channel.

(** [fmtAliases] (lines 93-99).  [order] is the sequence in which
    [for alias, channel := range channelAliases] visits the entries of the
    map; Go leaves that order open, so it is an argument, and the statements
    about [fmtAliases] hold for every arrangement of the entries. *)
Definition fmtAliases (order : list (string * string)) : string :=
  Join_strings ((fun entry => aliasLine entry.1 entry.2) <$> order) newline.

(** No dot and no path separator occurs in [s]. *)
Fixpoint noDotSep (s : string) : bool :=
  match s with
  | EmptyString => true
  | String c s' =>
      negb (Ascii.eqb c "."%char) && negb (GoFilepath.IsPathSeparator c)
      && noDotSep s'
  end.

(** What dropping an event whose conversion failed would look like in one
    iteration of the worker loop: the error is logged, [e.Match] is not
    called, [alertsCnt] keeps its value, [eventCnt] is incremented and the
    loop goes on. *)
Definition dropsFailedEvent {XMLEvent JSONEvent Value E : Type}
    `{!JSONCodec XMLEvent JSONEvent Value, !GeneRuntime E Value}
    (thresh : Z) (e : E) (cnt : Counters) (xe : XMLEvent) : Prop :=
  forall err,
    (XMLEventToGoEvtxMap xe).2 = Some err ->
    let r := handleEventGo thresh (e, cnt) xe in
    In (LogError ("Failed to convert event: " +:+ err)) (Proc.trace_of r) /\
    (forall ev, ~ In (CallMatch ev) (Proc.trace_of r)) /\
    exists e' cnt',
      Proc.outcome_of r = Ret (e', cnt') /\
      alertsCnt cnt' = alertsCnt cnt /\
      eventCnt cnt' = GoInt.incr (eventCnt cnt).

(** An engine call that returns what [rule] says, having written the rule
    names under ["GeneInfo"] into the event it matched. *)
Definition annotate (n : list string) (ev : EventPtr string) : EventPtr string :=
  match n, ev with
  | name :: _, Some ge => Some (Sample.store "GeneInfo" name ge)
  | _, _ => ev
  end.

Definition runtime (rule : EventPtr string -> list string * Z)
  : GeneRuntime (list string) string := {|
  MatchGo := fun e ev => Returns e (annotate (rule ev).1 ev) (rule ev).1 (rule ev).2
|}.

(** An engine call that panics on an event without the ["Raw"] entry, as
    the map left by a failed conversion is, and otherwise returns what
    [rule] says. *)
Definition strictRuntime (rule : EventPtr string -> list string * Z)
  : GeneRuntime (list string) string := {|
  MatchGo := fun e ev =>
    match ev with
    | Some (Some m) =>
        match m !! "Raw" with
        | Some _ => Returns e (annotate (rule ev).1 ev) (rule ev).1 (rule ev).2
        | None => Panics
        end
    | _ => Panics
    end
|}.

(** The value [-r] gave, replaced. *)
Definition withRulesPath (cfg : Config) (path : string) : Config :=
  {| debug := debug cfg; trace := trace cfg; versionFlag := versionFlag cfg;
     update := update cfg; rulesPath := path;
     criticalityThresh := criticalityThresh cfg;
     tagsVar := tagsVar cfg; namesVar := namesVar cfg;
     windowsChannels := windowsChannels cfg; timeout := timeout cfg |}.

(** The lines [fmt.Println] wrote, in order. *)
Definition printed {Value} (tr : list (Effect Value)) : list string :=
  omap (fun ev => match ev with Println line => Some line | _ => None end) tr.

(** [s] ends with [suffix]. *)
Definition hasSuffix (suffix s : string) : Prop :=
  exists stem, s = stem +:+ suffix.

(** The sends a broadcaster has completed; [n] is [len(windowsChannels)]. *)
Definition sent (n : nat) (w : Shutdown.Watcher) : nat :=
  match w with
  | Shutdown.Sending k => (n - k)%nat
  | _ => 0%nat
  end.

(** What has been sent has been received: a broadcaster never has more
    than [n] sends to go, and the tokens the workers hold are the sends the
    broadcasters have completed. *)
Definition conserved (n : nat) (s : Shutdown.State) : Prop :=
  (forall src k, Shutdown.watcher src s = Shutdown.Sending k -> (k <= n)%nat) /\
  Shutdown.delivered s
  = (sent n (Shutdown.timerW s) + sent n (Shutdown.interruptW s))%nat.

(** The events the workers have not counted yet. *)
Definition todoSum (ths : list Race.Thread) : nat :=
  foldr (fun th acc => (Race.todo th + acc)%nat) 0%nat ths.

(** Every value a worker holds between its read and its write satisfies [P]. *)
Definition regsAll (P : Z -> Prop) (ths : list Race.Thread) : Prop :=
  Forall (fun th => forall v, Race.reg th = Some v -> P v) ths.

(** The counters of the interleaving machine stay within what has been
    counted: [eventCnt] and every value read from it are between 0 and
    [total] less the events still to count, and [eventCnt] is 0 only while
    nothing has been counted. *)
Definition bounded (total : Z) (s : Race.Memory) : Prop :=
  let left := Z.of_nat (todoSum (Race.threads s)) in
  0 <= Race.eventCnt s /\
  Race.eventCnt s + left <= total /\
  (Race.eventCnt s = 0 -> left = total) /\
  regsAll (fun v => 0 <= v /\ v + left <= total) (Race.threads s).

(** A single worker: the counter and the events to go add up to [k], and
    a value read from the counter is the counter. *)
Definition alone (k : Z) (s : Race.Memory) : Prop :=
  exists th,
    Race.threads s = [th] /\
    Race.eventCnt s + Z.of_nat (Race.todo th) = k /\
    0 <= Race.eventCnt s /\
    (forall v, Race.reg th = Some v -> v = Race.eventCnt s).

(** A configuration with [-u]. *)
Definition updating : Config := {|
  debug := false; trace := false; versionFlag := false; update := true;
  rulesPath := "ignored"; criticalityThresh := 5;
  tagsVar := []; namesVar := [];
  windowsChannels := ["sysmon"]; timeout := 0
|}.

(** A network where the download fails. *)
Definition offline : World := {|
  HTTPGet := fun _ _ => Some "no route to host";
  Unzip := fun _ _ => None;
  ResolveLink := fun p => (p, None);
  IsFile := fun _ => false;
  IsDir := fun _ => false;
  Walk := fun _ => [];
  Join := fun d f => d +:+ "\" +:+ f;
  mapUnicodeLower := fun s => s
|}.

(** A download that arrives as a broken archive. *)
Definition brokenZip : World := {|
  HTTPGet := fun _ _ => None;
  Unzip := fun _ _ => Some "zip: not a valid zip file";
  ResolveLink := fun p => (p, None);
  IsFile := fun _ => false;
  IsDir := fun _ => false;
  Walk := fun _ => [];
  Join := fun d f => d +:+ "\" +:+ f;
  mapUnicodeLower := fun s => s
|}.

(** A rule path that is a dangling link. *)
Definition dangling : World := {|
  HTTPGet := fun _ _ => None;
  Unzip := fun _ _ => None;
  ResolveLink := fun p => ("", Some ("readlink " +:+ p +:+ ": no such file"));
  IsFile := fun _ => false;
  IsDir := fun _ => false;
  Walk := fun _ => [];
  Join := fun d f => d +:+ "\" +:+ f;
  mapUnicodeLower := fun s => s
|}.

(** The engine after [e.Load] has been called on [paths], in this order. *)
Definition engineAfter {E Value : Type} `{!GeneEngine E Value}
    (e : E) (paths : list string) : E :=
  foldl (fun e p => (Load e p).1) e paths.

(** The reading in which the number that start-up reports is the number of
    rule files that were loaded without error. *)
Definition countsParsedFiles {Value E : Type} `{!GeneEngine E Value, !World}
    (cfg : Config) : Prop :=
  forall e' : E,
    Proc.outcome_of (startup cfg) = Ret e' ->
    let ok := filter (fun c => Spec.failed c = false)
                (Spec.loadCalls (Proc.trace_of (startup (E := E) cfg))) in
    last (Proc.trace_of (startup (E := E) cfg))
    = Some (LogInfo ("Loaded " +:+ pretty (Z.of_nat (List.length ok)) +:+ " rules")).

(** An engine for rule files that hold several rules: [rulesOf p] are the
    names of the rules in the file [p]. *)
Definition bundleEngine (rulesOf : string -> list string)
  : GeneEngine (list string) string := {|
  NewEngine := fun _ => [];
  SetFilters := fun e _ _ => e;
  Load := fun e p => (rulesOf p ++ e, None);
  Count := fun e => Z.of_nat (List.length e);
  Match := fun _ _ => ([], 0)
|}.

(** A directory with one rule file, which holds two rules, and a text file. *)
Definition bundleDir : list WalkItem :=
  [ {| Dirpath := "rules"; Files := ["lateral.gen"; "readme.txt"] |} ].

Definition bundleWorld : World := Sample.world [] [("rules", bundleDir)].

Definition bundleRules (p : string) : list string :=
  if String.eqb p "rules\lateral.gen" then ["PsExec"; "WMIExec"] else [].

(** The reading in which the sends that are left over are thrown away: a
    broadcaster that has fired can always get to the end of its loop. *)
Definition surplusDiscarded (cfg : Config) : Prop :=
  forall s src k,
    Shutdown.reachable cfg s ->
    Shutdown.watcher src s = Shutdown.Sending k ->
    exists s',
      rtc (Shutdown.step (List.length (windowsChannels cfg))) s s' /\
      Shutdown.watcher src s' = Shutdown.Sending 0.

(** The schedule in which the workers [ids] make one increment each, in
    this order, the write of each directly after its read. *)
Definition atomicSched (ids : list nat) : list nat :=
  ids ≫= (fun i => [i; i]).

(** The command line [whids -c sysmon -r rules]. *)
Definition plainFlags : Flags := {|
  flag_c := ["sysmon"]; flag_timeout := 0; flag_trace := false;
  flag_d := false; flag_v := false; flag_u := false;
  flag_r := "rules"; flag_t := 5
|}.

End Further.

(** * Properties *)

(** ** Machine integers *)

Module GoIntFacts.
Import GoInt.

Lemma wrap_inRange x : inRange (wrap x).
Proof.
  unfold inRange, wrap, minInt, maxInt, intSize.
  pose proof (Z.mod_pos_bound (x + 2 ^ (64 - 1)) (2 ^ 64) ltac:(lia)).
  change (2 ^ 64) with (2 * 2 ^ (64 - 1)) in *. lia.
Qed.

Lemma wrap_id x : inRange x -> wrap x = x.
Proof.
  unfold inRange, wrap, minInt, maxInt, intSize. intros Hx.
  rewrite Z.mod_small; [lia |].
  change (2 ^ 64) with (2 * 2 ^ (64 - 1)). lia.
Qed.

Lemma wrap_add_l x y : wrap (wrap x + y) = wrap (x + y).
Proof.
  unfold wrap. f_equal.
  replace ((x + 2 ^ (intSize - 1)) mod 2 ^ intSize - 2 ^ (intSize - 1) + y
           + 2 ^ (intSize - 1))
    with ((x + 2 ^ (intSize - 1)) mod 2 ^ intSize + y) by lia.
  rewrite Zplus_mod_idemp_l. f_equal. lia.
Qed.

Lemma incr_wrap x : incr (wrap x) = wrap (x + 1).
Proof. unfold incr. apply wrap_add_l. Qed.

(** [x++] always changes [x], also when it wraps. *)
Lemma incr_neq x : incr x <> x.
Proof.
  unfold incr, wrap, intSize. intros Heq.
  assert (Hm : (x + 1 + 2 ^ (64 - 1)) mod 2 ^ 64 = x + 2 ^ (64 - 1)) by lia.
  pose proof (Z.div_mod (x + 1 + 2 ^ (64 - 1)) (2 ^ 64) ltac:(lia)) as Hd.
  rewrite Hm in Hd.
  assert (Hq : 2 ^ 64 * ((x + 1 + 2 ^ (64 - 1)) `div` 2 ^ 64) = 1) by lia.
  change (2 ^ 64) with 18446744073709551616 in Hq. lia.
Qed.

End GoIntFacts.

(** ** The writer/exit monad *)

Module ProcFacts.
Import Proc.

Section Laws.
Context {Value : Type}.
Local Abbreviation Proc := (Proc.t (Value := Value)).

Lemma bind_Ret {A B} (m : Proc A) (f : A -> Proc B) a :
  outcome_of m = Ret a ->
  trace_of (bind m f) = trace_of m ++ trace_of (f a) /\
  outcome_of (bind m f) = outcome_of (f a).
Proof.
  destruct m as [tr o]. simpl. intros ->. simpl.
  destruct (f a) as [tr' r]. auto.
Qed.

Lemma bind_Exit {A B} (m : Proc A) (f : A -> Proc B) c :
  outcome_of m = Exit c ->
  trace_of (bind m f) = trace_of m /\ outcome_of (bind m f) = Exit c.
Proof. destruct m as [tr o]. simpl. intros ->. auto. Qed.

Lemma bind_emit {B} (e : Effect Value) (k : unit -> Proc B) :
  bind (emit e) k = (e :: trace_of (k tt), outcome_of (k tt)).
Proof. unfold bind, emit. destruct (k tt). reflexivity. Qed.

Lemma bind_ret {A B} (a : A) (k : A -> Proc B) : bind (ret a) k = k a.
Proof. unfold bind, ret. destruct (k a). reflexivity. Qed.

Lemma surjective (A : Type) (m : Proc A) : m = (trace_of m, outcome_of m).
Proof. destruct m. reflexivity. Qed.

(** A loop whose body never exits runs to its end. *)
Lemma foldM_Ret {A S} (body : S -> A -> Proc S) :
  (forall s x, exists s', outcome_of (body s x) = Ret s') ->
  forall xs s, exists s', outcome_of (foldM body s xs) = Ret s'.
Proof.
  intros Hbody xs. induction xs as [|x xs IH]; intros s; simpl.
  - eexists. reflexivity.
  - destruct (Hbody s x) as [s1 H1].
    destruct (bind_Ret (body s x) (fun s' => foldM body s' xs) s1 H1) as [_ ->].
    apply IH.
Qed.

(** An invariant of the loop state and a trace measure that the body
    preserves are preserved by the loop. *)
Lemma foldM_inv {A S} (body : S -> A -> Proc S)
    (I : list (Effect Value) -> S -> S -> Prop) :
  (forall s, I [] s s) ->
  (forall s x s1 tr2 s2,
      outcome_of (body s x) = Ret s1 -> I tr2 s1 s2 ->
      I (trace_of (body s x) ++ tr2) s s2) ->
  (forall s x, exists s', outcome_of (body s x) = Ret s') ->
  forall xs s, exists s',
    outcome_of (foldM body s xs) = Ret s' /\ I (trace_of (foldM body s xs)) s s'.
Proof.
  intros Hnil Hstep Hbody xs. induction xs as [|x xs IH]; intros s; simpl.
  - exists s. split; [reflexivity | apply Hnil].
  - destruct (Hbody s x) as [s1 H1].
    destruct (bind_Ret (body s x) (fun s' => foldM body s' xs) s1 H1) as [-> ->].
    destruct (IH s1) as (s2 & H2 & HI).
    exists s2. split; [exact H2 |]. eapply Hstep; eauto.
Qed.

End Laws.

End ProcFacts.

(** ** Channel aliases (lines 81-84, 234-236) *)

Module AliasFacts.
Import GoStrings Spec.

Ltac all_bytes c :=
  destruct c as [[] [] [] [] [] [] [] []].

Lemma variant_byte a b :
  isASCIIByte a = true -> isUpperByte a = false ->
  (Ascii.eqb b a || (isLowerByte a && Ascii.eqb b (upperOf a))) = true ->
  isASCIIByte b = true /\ lowerByte b = a.
Proof.
  intros Ha Hu Hv. apply orb_true_iff in Hv as [Hv | Hv].
  - apply Ascii.eqb_eq in Hv. subst b. unfold lowerByte. rewrite Hu. auto.
  - apply andb_true_iff in Hv as [Hl Hv]. apply Ascii.eqb_eq in Hv. subst b.
    revert Ha Hu Hl. all_bytes a; vm_compute; intros; try discriminate; auto.
Qed.

Lemma lower_byte_variant b :
  isASCIIByte b = true ->
  (Ascii.eqb b (lowerByte b)
   || (isLowerByte (lowerByte b) && Ascii.eqb b (upperOf (lowerByte b)))) = true.
Proof. all_bytes b; vm_compute; intros; try discriminate; auto. Qed.

Lemma caseVariant_lower k : forall s,
  isLowerKey k = true -> caseVariant k s = true ->
  isASCII s = true /\ mapBytes lowerByte s = k.
Proof.
  induction k as [|a k IH]; intros [|b s] Hk Hv; simpl in *; try discriminate; auto.
  apply andb_true_iff in Hk as [Hk Hk'].
  apply andb_true_iff in Hk as [Ha Hu]. apply negb_true_iff in Hu.
  apply andb_true_iff in Hv as [Hb Hv].
  destruct (variant_byte a b Ha Hu Hb) as [Hb1 Hb2].
  destruct (IH s Hk' Hv) as [Hs1 Hs2].
  rewrite Hb1, Hs1, Hb2, Hs2. auto.
Qed.

Lemma lower_caseVariant s :
  isASCII s = true -> caseVariant (mapBytes lowerByte s) s = true.
Proof.
  induction s as [|b s IH]; simpl; [reflexivity |].
  intros Hs. apply andb_true_iff in Hs as [Hb Hs].
  rewrite (lower_byte_variant b Hb), (IH Hs). reflexivity.
Qed.

Lemma alias_keys_lower k c :
  channelAliases !! k = Some c -> isLowerKey k = true.
Proof.
  unfold channelAliases. intros Hk.
  apply lookup_insert_Some in Hk as [[<- _] | [_ Hk]]; [reflexivity |].
  apply lookup_insert_Some in Hk as [[<- _] | [_ Hk]]; [reflexivity |].
  rewrite lookup_empty in Hk. discriminate.
Qed.

Section Resolver.
Context `{!World}.

(** C7.  Alias resolution is a total function of the requested identifier.
    An identifier that spells a key of the alias table in any mix of upper
    and lower case resolves to the channel name stored under that key; an
    identifier whose lower-cased form is not a key is returned unchanged,
    and so is every ASCII identifier that spells no key. *)
Theorem alias_resolution :
  (forall k c s,
      channelAliases !! k = Some c -> caseVariant k s = true ->
      resolveAlias s = c) /\
  (forall s,
      channelAliases !! ToLower mapUnicodeLower s = None -> resolveAlias s = s) /\
  (forall s,
      isASCII s = true ->
      (forall k, is_Some (channelAliases !! k) -> caseVariant k s = false) ->
      resolveAlias s = s).
Proof.
  split; [| split].
  - intros k c s Hk Hv.
    destruct (caseVariant_lower k s (alias_keys_lower k c Hk) Hv) as [Ha Hl].
    unfold resolveAlias, ToLower. rewrite Ha, Hl, Hk. reflexivity.
  - intros s Hn. unfold resolveAlias. rewrite Hn. reflexivity.
  - intros s Ha Hno. unfold resolveAlias.
    destruct (channelAliases !! ToLower mapUnicodeLower s) as [c|] eqn:Hk;
      [| reflexivity].
    exfalso.
    assert (Hsome : is_Some (channelAliases !! ToLower mapUnicodeLower s))
      by (rewrite Hk; eauto).
    specialize (Hno _ Hsome). unfold ToLower in Hno. rewrite Ha in Hno.
    rewrite (lower_caseVariant s Ha) in Hno. discriminate.
Qed.

End Resolver.

Lemma alias_resolution_witness :
  @resolveAlias (Sample.world [] []) "SysMon" = "Microsoft-Windows-Sysmon/Operational" /\
  @resolveAlias (Sample.world [] []) "Application" = "Application" /\
  @resolveAlias (Sample.world [] []) "Setup" = "Setup".
Proof.
  destruct (@alias_resolution (Sample.world [] [])) as (Hknown & Hother & Hascii).
  split; [| split].
  - apply (Hknown "sysmon"); reflexivity.
  - apply Hother. reflexivity.
  - apply Hascii; [reflexivity |].
    intros k [c Hk]. unfold channelAliases in Hk.
    apply lookup_insert_Some in Hk as [[<- _] | [_ Hk]]; [reflexivity |].
    apply lookup_insert_Some in Hk as [[<- _] | [_ Hk]]; [reflexivity |].
    rewrite lookup_empty in Hk. discriminate.
Defined.

End AliasFacts.

(** ** [XMLEventToGoEvtxMap] (lines 32-43) *)

Module ConvertFacts.

Section Convert.
Context {XMLEvent JSONEvent Value : Type}.
Context `{!JSONCodec XMLEvent JSONEvent Value}.

Lemma convert_marshal_error (xe : XMLEvent) err :
  json_Marshal (ToJSONEvent xe) = inr err ->
  XMLEventToGoEvtxMap xe = (Some make_GoEvtxMap, Some err).
Proof. unfold XMLEventToGoEvtxMap. intros ->. reflexivity. Qed.

Lemma convert_unmarshal (xe : XMLEvent) bytes ge err :
  json_Marshal (ToJSONEvent xe) = inl bytes ->
  json_Unmarshal bytes make_GoEvtxMap = (ge, err) ->
  XMLEventToGoEvtxMap xe = (Some ge, err).
Proof.
  unfold XMLEventToGoEvtxMap. intros -> ->. destruct err; reflexivity.
Qed.

Lemma convert_pointer (xe : XMLEvent) :
  exists ge, (XMLEventToGoEvtxMap xe).1 = Some ge.
Proof.
  unfold XMLEventToGoEvtxMap.
  destruct (json_Marshal (ToJSONEvent xe)) as [bytes | err]; [| eauto].
  destruct (json_Unmarshal bytes make_GoEvtxMap) as [ge [err|]]; eauto.
Qed.

(** C10.  [XMLEventToGoEvtxMap] never returns a nil pointer.  When
    [json.Marshal] fails, the pointer is to the empty map made at entry and
    the error is returned with it.  When [json.Unmarshal] fails, the pointer
    is to the map as [json.Unmarshal] left it, returned with the error; that
    map is not nil as long as [json.Unmarshal] does not turn a non-nil map
    into nil when it reports an error. *)
Theorem XMLEventToGoEvtxMap_never_nil (xe : XMLEvent) :
  exists ge,
    (XMLEventToGoEvtxMap xe).1 = Some ge /\
    (forall err,
        json_Marshal (ToJSONEvent xe) = inr err ->
        ge = Some ∅ /\ (XMLEventToGoEvtxMap xe).2 = Some err) /\
    (forall bytes ge' err,
        json_Marshal (ToJSONEvent xe) = inl bytes ->
        json_Unmarshal bytes make_GoEvtxMap = (ge', Some err) ->
        ge = ge' /\ (XMLEventToGoEvtxMap xe).2 = Some err /\
        ((forall b m g e, json_Unmarshal b (Some m) = (g, Some e) -> g <> None) ->
         ge <> None)).
Proof.
  destruct (convert_pointer xe) as [ge Hge]. exists ge.
  split; [exact Hge |]. split.
  - intros err Hm. rewrite (convert_marshal_error xe err Hm) in *.
    simpl in *. unfold make_GoEvtxMap in Hge. split; [congruence | reflexivity].
  - intros bytes ge' err Hm Hu.
    rewrite (convert_unmarshal xe bytes ge' (Some err) Hm Hu) in *.
    simpl in *. assert (ge = ge') as -> by congruence.
    split; [reflexivity |]. split; [reflexivity |].
    intros Hjson. exact (Hjson _ _ _ _ Hu).
Qed.

End Convert.

Lemma XMLEventToGoEvtxMap_never_nil_witness :
  (@XMLEventToGoEvtxMap _ _ _ Sample.codec "").1 = Some (Some ∅) /\
  (@XMLEventToGoEvtxMap _ _ _ Sample.codec "mismatch").1
    = Some (Some {["Partial" := "mismatch"]}) /\
  (@XMLEventToGoEvtxMap _ _ _ Sample.codec "mismatch").2
    = Some "json: cannot unmarshal".
Proof.
  split; [| split].
  - destruct (@XMLEventToGoEvtxMap_never_nil _ _ _ Sample.codec "")
      as (ge & Hge & Hmarshal & _).
    destruct (Hmarshal "json: unsupported value" eq_refl) as [-> _]. exact Hge.
  - destruct (@XMLEventToGoEvtxMap_never_nil _ _ _ Sample.codec "mismatch")
      as (ge & Hge & _ & Hunmarshal).
    destruct (Hunmarshal "mismatch" (Some {["Partial" := "mismatch"]})
                "json: cannot unmarshal" eq_refl eq_refl) as (-> & _ & _).
    exact Hge.
  - destruct (@XMLEventToGoEvtxMap_never_nil _ _ _ Sample.codec "mismatch")
      as (ge & _ & _ & Hunmarshal).
    destruct (Hunmarshal "mismatch" (Some {["Partial" := "mismatch"]})
                "json: cannot unmarshal" eq_refl eq_refl) as (_ & Herr & _).
    exact Herr.
Defined.

End ConvertFacts.

(** ** The worker loop (lines 239-252) *)

Module WorkerFacts.
Import Proc ProcFacts GoInt GoIntFacts Spec.

Section Worker.
Context {XMLEvent JSONEvent Value E : Type}.
Context `{!JSONCodec XMLEvent JSONEvent Value, !GeneEngine E Value, !World}.

Lemma alerting_code (thresh : Z) (n : list string) (crit : Z) :
  alerting thresh (n, crit) = (0 <? List.length n)%nat && (thresh <=? crit).
Proof.
  unfold alerting. simpl. f_equal.
  - destruct n; reflexivity.
  - destruct (Z.leb_spec thresh crit).
    + rewrite bool_decide_eq_true_2; [reflexivity | lia].
    + rewrite bool_decide_eq_false_2; [reflexivity | lia].
Qed.

Lemma alerting_iff (thresh : Z) (res : list string * Z) :
  alerting thresh res = true <-> res.1 <> [] /\ thresh <= res.2.
Proof.
  unfold alerting. rewrite andb_true_iff, negb_true_iff,
    bool_decide_eq_false, bool_decide_eq_true. reflexivity.
Qed.

(** One iteration, effect by effect. *)
Lemma handleEvent_eq (e : E) (thresh : Z) (cnt : Counters) (xe : XMLEvent) :
  let conv := XMLEventToGoEvtxMap xe in
  let hit := alerting thresh (Match e conv.1) in
  handleEvent e thresh cnt xe =
    (match conv.2 with
     | Some err => [LogError ("Failed to convert event: " +:+ err);
                    LogDebug ("Error data: " +:+ fmt_v xe)]
     | None => []
     end
     ++ CallMatch conv.1
     :: (if hit then [Println (evtx_ToJSON conv.1)] else []),
     Ret {| eventCnt := incr (eventCnt cnt);
            alertsCnt := if hit then incr (alertsCnt cnt) else alertsCnt cnt |}).
Proof.
  unfold handleEvent. cbv zeta.
  destruct (XMLEventToGoEvtxMap xe) as [event err]. cbn [fst snd].
  destruct (Match e event) as [n crit] eqn:Hm. rewrite alerting_code.
  destruct err as [err|];
    destruct (0 <? List.length n)%nat; destruct (thresh <=? crit); reflexivity.
Qed.

Lemma worker_loop (e : E) (thresh : Z) (events : list XMLEvent) :
  forall cnt a b,
    eventCnt cnt = wrap a -> alertsCnt cnt = wrap b ->
    exists cnt',
      outcome_of (foldM (handleEvent e thresh) cnt events) = Ret cnt' /\
      eventCnt cnt' = wrap (a + Z.of_nat (List.length events)) /\
      alertsCnt cnt' = wrap (b + Z.of_nat (List.length (alertEvents e thresh events))) /\
      List.length (filter (fun ev => isCallMatch ev = true)
                 (trace_of (foldM (handleEvent e thresh) cnt events)))
        = List.length events.
Proof.
  induction events as [|xe events IH]; intros cnt a b Ha Hb.
  - exists cnt. simpl. rewrite !Z.add_0_r. auto.
  - cbn [foldM].
    pose proof (handleEvent_eq e thresh cnt xe) as Heq. cbv zeta in Heq.
    set (cnt1 := {| eventCnt := incr (eventCnt cnt);
                    alertsCnt := if alerting thresh (Match e (XMLEventToGoEvtxMap xe).1)
                                 then incr (alertsCnt cnt) else alertsCnt cnt |}) in *.
    assert (Ho : outcome_of (handleEvent e thresh cnt xe) = Ret cnt1)
      by (rewrite Heq; reflexivity).
    destruct (bind_Ret _ (fun s' => foldM (handleEvent e thresh) s' events) _ Ho)
      as [-> ->].
    unfold alertEvents. rewrite filter_cons.
    destruct (decide (alerting thresh (Match e (XMLEventToGoEvtxMap xe).1) = true))
      as [Hhit | Hhit].
    + destruct (IH cnt1 (a + 1) (b + 1)) as (cnt' & Hout & Hev & Hal & Hm).
      { subst cnt1. simpl. rewrite Ha. apply incr_wrap. }
      { subst cnt1. simpl. rewrite Hhit, Hb. apply incr_wrap. }
      exists cnt'. split; [exact Hout |]. split; [| split].
      * rewrite Hev. f_equal. simpl List.length. lia.
      * fold (alertEvents e thresh events). rewrite Hal. f_equal.
        simpl List.length. lia.
      * rewrite filter_app, length_app, Hm, Heq. cbn [trace_of fst].
        rewrite Hhit, filter_app, length_app.
        destruct (XMLEventToGoEvtxMap xe).2; reflexivity.
    + apply not_true_is_false in Hhit.
      destruct (IH cnt1 (a + 1) b) as (cnt' & Hout & Hev & Hal & Hm).
      { subst cnt1. simpl. rewrite Ha. apply incr_wrap. }
      { subst cnt1. simpl. rewrite Hhit, Hb. reflexivity. }
      exists cnt'. split; [exact Hout |]. split; [| split].
      * rewrite Hev. f_equal. simpl List.length. lia.
      * fold (alertEvents e thresh events). exact Hal.
      * rewrite filter_app, length_app, Hm, Heq. cbn [trace_of fst].
        rewrite Hhit, filter_app, length_app.
        destruct (XMLEventToGoEvtxMap xe).2; reflexivity.
Qed.

Lemma worker_outcome (e : E) (thresh : Z) winChan events cnt :
  outcome_of (worker e thresh winChan events cnt)
    = outcome_of (foldM (handleEvent e thresh) cnt events) /\
  trace_of (worker e thresh winChan events cnt)
    = LogInfo ("Listening on Windows channel: " +:+ resolveAlias winChan)
      :: Subscribe (resolveAlias winChan)
      :: trace_of (foldM (handleEvent e thresh) cnt events).
Proof.
  unfold worker. cbv zeta.
  rewrite (surjective _ (foldM (handleEvent e thresh) cnt events)).
  split; reflexivity.
Qed.

(** C1.  In one iteration of the worker loop [eventCnt] is incremented
    whatever the match result is, and [alertsCnt] is incremented exactly
    when the match result has a rule name and a criticality at or above the
    threshold; it keeps its value otherwise.  Over a whole stream, counted
    from zero, a worker leaves the number of events in [eventCnt] and the
    number of alerting events in [alertsCnt] (as Go [int]s). *)
Theorem alert_iff_match_and_threshold (e : E) (thresh : Z) :
  (forall cnt xe, exists cnt',
      let res := Match e (XMLEventToGoEvtxMap xe).1 in
      outcome_of (handleEvent e thresh cnt xe) = Ret cnt' /\
      eventCnt cnt' = incr (eventCnt cnt) /\
      eventCnt cnt' <> eventCnt cnt /\
      (alertsCnt cnt' <> alertsCnt cnt <-> res.1 <> [] /\ thresh <= res.2) /\
      (res.1 <> [] /\ thresh <= res.2 -> alertsCnt cnt' = incr (alertsCnt cnt))) /\
  (forall winChan events, exists cnt',
      outcome_of (worker e thresh winChan events {| eventCnt := 0; alertsCnt := 0 |})
        = Ret cnt' /\
      eventCnt cnt' = wrap (Z.of_nat (List.length events)) /\
      alertsCnt cnt' = wrap (Z.of_nat (List.length (alertEvents e thresh events))) /\
      (Z.of_nat (List.length events) <= maxInt ->
       eventCnt cnt' = Z.of_nat (List.length events) /\
       alertsCnt cnt' = Z.of_nat (List.length (alertEvents e thresh events)))).
Proof.
  split.
  - intros cnt xe.
    pose proof (handleEvent_eq e thresh cnt xe) as Heq. cbv zeta in Heq.
    eexists. cbv zeta. rewrite Heq. cbn [outcome_of snd eventCnt alertsCnt].
    split; [reflexivity |]. split; [reflexivity |].
    split; [apply incr_neq |].
    rewrite <- alerting_iff.
    destruct (alerting thresh (Match e (XMLEventToGoEvtxMap xe).1)).
    + split; [| reflexivity]. split; [reflexivity |]. intros _. apply incr_neq.
    + split; [| discriminate].
      split; [intros Hne; exfalso; apply Hne; reflexivity | discriminate].
  - intros winChan events.
    destruct (worker_loop e thresh events {| eventCnt := 0; alertsCnt := 0 |} 0 0)
      as (cnt' & Hout & Hev & Hal & _); [reflexivity | reflexivity |].
    exists cnt'. rewrite (proj1 (worker_outcome _ _ _ _ _)).
    rewrite !Z.add_0_l in *.
    split; [exact Hout |]. split; [exact Hev |]. split; [exact Hal |].
    intros Hmax. rewrite Hev, Hal.
    assert (Hle : (List.length (alertEvents e thresh events) <= List.length events)%nat)
      by apply length_filter.
    split; apply wrap_id; unfold inRange, minInt, maxInt, intSize in *; lia.
Qed.

End Worker.

(** Scenario D, and the same stream with thresholds that suppress it. *)
Lemma alert_iff_match_and_threshold_witness :
  let e := @NewEngine _ _ (Sample.engine [] Sample.mimikatzRule) false in
  exists cnt',
    outcome_of (@worker _ _ _ _ Sample.codec (Sample.engine [] Sample.mimikatzRule)
                  (Sample.world [] []) e 5 "sysmon" Sample.stream
                  {| eventCnt := 0; alertsCnt := 0 |}) = Ret cnt' /\
    eventCnt cnt' = 10 /\ alertsCnt cnt' = 3.
Proof.
  intros e.
  destruct (@alert_iff_match_and_threshold _ _ _ _ Sample.codec
              (Sample.engine [] Sample.mimikatzRule) (Sample.world [] []) e 5)
    as [_ Hstream].
  destruct (Hstream "sysmon" Sample.stream) as (cnt' & Hout & _ & _ & Hsmall).
  exists cnt'. split; [exact Hout |].
  destruct Hsmall as [-> ->]; [vm_compute; discriminate |].
  split; reflexivity.
Defined.

End WorkerFacts.

(** ** Start-up (lines 120-199) *)

Module StartupFacts.
Import Proc ProcFacts Spec.

Lemma prefix_app (p s : string) : hasPrefix p (p +:+ s) = true.
Proof.
  induction p as [|a p IH]; simpl; [reflexivity |].
  rewrite Ascii.eqb_refl. exact IH.
Qed.

Lemma contains_prefix (sub s : string) :
  hasPrefix sub s = true -> contains sub s = true.
Proof. destruct s; simpl; intros ->; reflexivity. Qed.

Lemma contains_app_r (a sub s : string) :
  contains sub s = true -> contains sub (a +:+ s) = true.
Proof.
  intros Hs. induction a as [|c a IH]; simpl; [exact Hs |].
  rewrite IH. apply orb_true_r.
Qed.

Lemma contains_middle (a p b : string) : contains p (a +:+ p +:+ b) = true.
Proof. apply contains_app_r, contains_prefix, prefix_app. Qed.

Section Startup.
Context {XMLEvent JSONEvent Value E : Type}.
Context `{!JSONCodec XMLEvent JSONEvent Value, !GeneEngine E Value, !World}.

Local Abbreviation Proc := (Proc.t (Value := Value)).

(** The [-u] branch either exits with code 1 or yields the rule path; none
    of its effects touches the engine or starts monitoring. *)
Lemma updateDatabase_cases (cfg : Config) :
  Forall (fun ev => constructsEngine ev = false /\ usesEngine ev = false
                    /\ monitors ev = false)
         (trace_of (updateDatabase (Value := Value) cfg)) /\
  (outcome_of (updateDatabase (Value := Value) cfg) = Exit exitFail \/
   exists p, outcome_of (updateDatabase (Value := Value) cfg) = Ret p /\
             (update cfg = false -> p = rulesPath cfg)).
Proof.
  unfold updateDatabase, exitOnError, LogErrorAndExit.
  destruct (update cfg); [| split; [constructor | right; eauto]].
  destruct (HTTPGet geneRulesRepo databaseZip) as [err1|];
    [split; [repeat constructor | left; reflexivity] |].
  destruct (Unzip databaseZip databasePath) as [err2|];
    [split; [repeat constructor | left; reflexivity] |].
  split; [repeat constructor | right].
  eexists. split; [reflexivity | discriminate].
Qed.

(** *** Rule loading (lines 175-198) *)

Lemma Contains_allowListed (fi : string) :
  Contains setRuleExts (GoFilepath.Ext fi) = allowListed fi.
Proof.
  unfold Contains, allowListed, setRuleExts.
  apply bool_decide_ext. apply elem_of_list_to_set.
Qed.

(** One file of the walk, effect by effect. *)
Lemma loadWalkFile_eq (dir : string) (e : E) (fi : string) :
  loadWalkFile dir e fi =
    if allowListed fi then
      (LogDebug (GoFilepath.Ext fi)
       :: CallLoad (Join dir fi) (Load e (Join dir fi)).2
       :: match (Load e (Join dir fi)).2 with
          | Some err =>
              [LogError ("Error loading " +:+ Join dir fi +:+ ": " +:+ err)]
          | None => []
          end,
       Ret (Load e (Join dir fi)).1)
    else ([LogDebug (GoFilepath.Ext fi)], Ret e).
Proof.
  unfold loadWalkFile. rewrite Contains_allowListed.
  destruct (allowListed fi); [| reflexivity].
  destruct (Load e (Join dir fi)) as [e' [err|]]; reflexivity.
Qed.

Lemma loaded_nil (e : E) : loaded e [] e [].
Proof.
  repeat split; try constructor. intros. simpl. lia.
Qed.

Lemma loaded_app (e e1 e2 : E) tr1 tr2 p1 p2 :
  loaded e tr1 e1 p1 -> loaded e1 tr2 e2 p2 ->
  loaded e (tr1 ++ tr2) e2 (p1 ++ p2).
Proof.
  intros (Hc1 & Hf1 & Hl1 & Hn1) (Hc2 & Hf2 & Hl2 & Hn2).
  unfold loaded, loadCalls in *. repeat split.
  - rewrite omap_app, fmap_app. congruence.
  - apply Forall_app. auto.
  - rewrite omap_app, !filter_app, !length_app. lia.
  - intros parses Hp. rewrite (Hn2 parses Hp), (Hn1 parses Hp).
    rewrite filter_app, length_app. lia.
Qed.

Lemma loaded_file (dir : string) (e : E) (fi : string) :
  exists e',
    outcome_of (loadWalkFile dir e fi) = Ret e' /\
    loaded e (trace_of (loadWalkFile dir e fi)) e'
      (if allowListed fi then [Join dir fi] else []).
Proof.
  rewrite loadWalkFile_eq. destruct (allowListed fi).
  - eexists. split; [reflexivity |]. cbn [trace_of fst].
    repeat split.
    + destruct (Load e (Join dir fi)).2; reflexivity.
    + destruct (Load e (Join dir fi)).2; repeat constructor.
    + destruct (Load e (Join dir fi)).2 eqn:Hr; reflexivity.
    + intros parses Hp. destruct (Hp e (Join dir fi)) as [Hok Hbad].
      rewrite filter_cons. destruct (decide (parses (Join dir fi) = true)) as [Ht|Hf].
      * destruct (Hok Ht) as [_ ->]. simpl. lia.
      * apply not_true_is_false in Hf. destruct (Hbad Hf) as [_ ->]. simpl. lia.
  - exists e. split; [reflexivity |]. cbn [trace_of fst].
    repeat split; try (repeat constructor). intros. simpl. lia.
Qed.

Lemma item_ruleFiles (dir : string) (files : list string) :
  (snd <$> filter (fun f : string * string => allowListed f.1 = true)
             ((fun fi => (fi, Join dir fi)) <$> files))
  = (Join dir <$> filter (fun fi => allowListed fi = true) files).
Proof.
  induction files as [|fi files IH]; [reflexivity |].
  rewrite fmap_cons, !filter_cons. cbn [fst].
  destruct (decide (allowListed fi = true)); [rewrite !fmap_cons |];
    rewrite IH; reflexivity.
Qed.

Lemma ruleFiles_cons (wi : WalkItem) (items : list WalkItem) :
  ruleFiles (wi :: items)
  = (Join (Dirpath wi) <$> filter (fun fi => allowListed fi = true) (Files wi))
    ++ ruleFiles items.
Proof.
  unfold ruleFiles, walkFiles. rewrite bind_cons, filter_app, fmap_app.
  rewrite item_ruleFiles. reflexivity.
Qed.

Lemma loaded_item (dir : string) (files : list string) : forall e : E,
  exists e',
    outcome_of (foldM (loadWalkFile dir) e files) = Ret e' /\
    loaded e (trace_of (foldM (loadWalkFile dir) e files)) e'
      (Join dir <$> filter (fun fi => allowListed fi = true) files).
Proof.
  induction files as [|fi files IH]; intros e.
  - exists e. split; [reflexivity | apply loaded_nil].
  - cbn [foldM]. destruct (loaded_file dir e fi) as (e1 & Ho1 & Hl1).
    destruct (bind_Ret _ (fun s' => foldM (loadWalkFile dir) s' files) _ Ho1)
      as [-> ->].
    destruct (IH e1) as (e2 & Ho2 & Hl2).
    exists e2. split; [exact Ho2 |].
    rewrite filter_cons.
    destruct (decide (allowListed fi = true)) as [Ha | Ha].
    + rewrite Ha in Hl1. apply (loaded_app _ _ _ _ _ _ _ Hl1 Hl2).
    + apply not_true_is_false in Ha. rewrite Ha in Hl1.
      apply (loaded_app _ _ _ _ _ _ _ Hl1 Hl2).
Qed.

Lemma loaded_items (items : list WalkItem) : forall e : E,
  exists e',
    outcome_of (foldM loadWalkItem e items) = Ret e' /\
    loaded e (trace_of (foldM loadWalkItem e items)) e' (ruleFiles items).
Proof.
  induction items as [|wi items IH]; intros e.
  - exists e. split; [reflexivity | apply loaded_nil].
  - cbn [foldM]. destruct (loaded_item (Dirpath wi) (Files wi) e) as (e1 & Ho1 & Hl1).
    fold (loadWalkItem e wi) in Ho1, Hl1.
    destruct (bind_Ret _ (fun s' => foldM loadWalkItem s' items) _ Ho1) as [-> ->].
    destruct (IH e1) as (e2 & Ho2 & Hl2).
    exists e2. split; [exact Ho2 |].
    rewrite ruleFiles_cons. apply (loaded_app _ _ _ _ _ _ _ Hl1 Hl2).
Qed.

Lemma elem_of_ruleFiles (items : list WalkItem) (p : string) :
  p ∈ ruleFiles items ->
  exists wi fi,
    wi ∈ items /\ fi ∈ Files wi /\ p = Join (Dirpath wi) fi /\
    GoFilepath.Ext fi ∈ ruleExts.
Proof.
  unfold ruleFiles, walkFiles. intros Hp.
  apply list_elem_of_fmap in Hp as ([fi q] & -> & Hin).
  apply list_elem_of_filter in Hin as [Hal Hin].
  apply list_elem_of_bind in Hin as (wi & Hin & Hwi).
  apply list_elem_of_fmap in Hin as (fi' & Heq & Hfi).
  injection Heq as -> ->.
  exists wi, fi'. repeat split; auto.
  simpl in Hal. unfold allowListed in Hal.
  apply bool_decide_eq_true in Hal. exact Hal.
Qed.

Lemma loadFile_eq (e : E) (realPath : string) :
  loadFile e realPath =
    (CallLoad realPath (Load e realPath).2
     :: match (Load e realPath).2 with
        | Some err => [LogError err]
        | None => []
        end,
     Ret (Load e realPath).1).
Proof.
  unfold loadFile. destruct (Load e realPath) as [e' [err|]]; reflexivity.
Qed.

Lemma startup_unfold (cfg : Config) :
  versionFlag cfg = false ->
  startup cfg =
    (Proc.when (debug cfg) (Proc.emit InitLogger) ;;;
     rulesPath <- updateDatabase cfg ;;
     configure cfg rulesPath)%proc.
Proof.
  intros Hv. unfold startup. rewrite Hv. simpl Proc.when at 1.
  rewrite bind_ret. reflexivity.
Qed.


(** *** The checks (lines 146-172) *)

Lemma configure_no_path (cfg : Config) :
  configure cfg "" = ([LogError "No rule file to load"], Exit exitFail).
Proof. reflexivity. Qed.

Lemma eqb_empty_false (p : string) : p <> "" -> String.eqb p "" = false.
Proof. intros Hp. apply String.eqb_neq. exact Hp. Qed.

Lemma configure_conflict (cfg : Config) (p : string) :
  p <> "" -> tagsVar cfg <> [] -> namesVar cfg <> [] ->
  configure cfg p =
    ([CallNewEngine (trace cfg);
      LogError "Cannot search by tags and names at the same time"],
     Exit exitFail).
Proof.
  intros Hp Ht Hn. unfold configure. rewrite (eqb_empty_false p Hp).
  destruct (tagsVar cfg); [congruence |].
  destruct (namesVar cfg); [congruence |]. reflexivity.
Qed.

Lemma no_conflict_check (cfg : Config) :
  tagsVar cfg = [] \/ namesVar cfg = [] ->
  ((0 <? List.length (tagsVar cfg))%nat && (0 <? List.length (namesVar cfg))%nat)
  = false.
Proof.
  intros [-> | ->]; [reflexivity |]. apply andb_false_r.
Qed.

(** Past the checks, [configure] is the rule loading framed by the engine
    set-up before it and the rule count after it. *)
Lemma configure_load (cfg : Config) (p realPath : string) :
  p <> "" -> tagsVar cfg = [] \/ namesVar cfg = [] ->
  ResolveLink p = (realPath, None) ->
  let e0 : E := SetFilters (NewEngine (trace cfg)) (namesVar cfg) (tagsVar cfg) in
  let load := loadRules e0 p realPath in
  configure cfg p =
    ([CallNewEngine (trace cfg);
      CallSetFilters (namesVar cfg) (tagsVar cfg);
      CallResolveLink p]
     ++ trace_of load
     ++ match outcome_of load with
        | Ret e => [CallCount; LogInfo ("Loaded " +:+ pretty (Count e) +:+ " rules")]
        | Exit _ => []
        end,
     outcome_of load).
Proof.
  intros Hp Hf Hr. cbv zeta. unfold configure.
  rewrite (eqb_empty_false p Hp), (no_conflict_check cfg Hf), Hr.
  destruct (loadRules _ p realPath) as [tr [e|c]]; simpl;
    rewrite ?app_nil_r; reflexivity.
Qed.

Lemma loadRules_unresolved (e : E) (p realPath : string) :
  IsFile realPath = false -> IsDir realPath = false ->
  loadRules e p realPath =
    ([LogError ("Cannot resolve " +:+ p +:+ " to file or dir")], Exit exitFail).
Proof. unfold loadRules. intros -> ->. reflexivity. Qed.

(** *** [main] as a whole *)

Lemma spawn_workers (chans : list string) :
  foldM (fun (_ : unit) winChan => Proc.emit (Value := Value) (GoWorker winChan))
        tt chans
  = (GoWorker <$> chans, Ret tt).
Proof.
  induction chans as [|c chans IH]; [reflexivity |].
  cbn [foldM]. rewrite bind_emit, IH. reflexivity.
Qed.

Lemma spawn_eq (cfg : Config) :
  spawn (Value := Value) cfg =
    ((if 0 <? timeout cfg then [GoTimer] else [])
     ++ GoInterrupt :: (GoWorker <$> windowsChannels cfg),
     Ret tt).
Proof.
  unfold spawn. rewrite spawn_workers.
  destruct (0 <? timeout cfg); reflexivity.
Qed.

Lemma main_Exit (cfg : Config) (c : Z) :
  outcome_of (startup cfg) = Exit c ->
  main cfg = (trace_of (startup cfg), Exit c).
Proof.
  intros Ho. unfold main.
  destruct (bind_Exit (startup cfg)
              (fun e => spawn cfg ;;; Proc.ret e)%proc c Ho) as [Ht Hc].
  rewrite (surjective _ (Proc.bind _ _)), Ht, Hc. reflexivity.
Qed.

Lemma main_Ret (cfg : Config) (e : E) :
  outcome_of (startup cfg) = Ret e ->
  main cfg =
    (trace_of (startup cfg)
     ++ (if 0 <? timeout cfg then [GoTimer] else [])
     ++ GoInterrupt :: (GoWorker <$> windowsChannels cfg),
     Ret e).
Proof.
  intros Ho. unfold main.
  destruct (bind_Ret (startup cfg)
              (fun e => spawn cfg ;;; Proc.ret e)%proc e Ho) as [Ht Hc].
  rewrite (surjective _ (Proc.bind _ _)), Ht, Hc, spawn_eq.
  cbn. rewrite app_nil_r. reflexivity.
Qed.

Lemma startup_update_Exit (cfg : Config) (c : Z) :
  versionFlag cfg = false ->
  outcome_of (updateDatabase (Value := Value) cfg) = Exit c ->
  startup cfg =
    ((if debug cfg then [InitLogger] else [])
     ++ trace_of (updateDatabase (Value := Value) cfg),
     Exit c).
Proof.
  intros Hv Hu. rewrite (startup_unfold cfg Hv).
  destruct (updateDatabase cfg) as [tr o]. simpl in Hu. subst o.
  destruct (debug cfg); reflexivity.
Qed.

Lemma startup_update_Ret (cfg : Config) (p : string) :
  versionFlag cfg = false ->
  outcome_of (updateDatabase (Value := Value) cfg) = Ret p ->
  startup cfg =
    ((if debug cfg then [InitLogger] else [])
     ++ trace_of (updateDatabase (Value := Value) cfg)
     ++ trace_of (configure cfg p),
     outcome_of (configure cfg p)).
Proof.
  intros Hv Hu. rewrite (startup_unfold cfg Hv).
  destruct (updateDatabase cfg) as [tr o]. simpl in Hu. subst o.
  destruct (debug cfg); cbn -[configure];
    destruct (configure cfg p) as [tr' o']; reflexivity.
Qed.

Lemma debug_quiet (b : bool) (P : Effect Value -> Prop) :
  P InitLogger -> Forall P (if b then [InitLogger] else []).
Proof. destruct b; repeat constructor; auto. Qed.


Lemma quiet_weaken (tr : list (Effect Value)) :
  Forall (fun ev => constructsEngine ev = false /\ usesEngine ev = false
                    /\ monitors ev = false) tr ->
  Forall (fun ev => usesEngine ev = false /\ monitors ev = false) tr.
Proof. intros Hq. eapply Forall_impl; [exact Hq | simpl; tauto]. Qed.

Lemma quiet_monitors (tr : list (Effect Value)) :
  Forall (fun ev => usesEngine ev = false /\ monitors ev = false) tr ->
  Forall (fun ev => monitors ev = false) tr.
Proof. intros Hq. eapply Forall_impl; [exact Hq | simpl; tauto]. Qed.

(** C9.  Past the [-v] check, a missing rule path makes [main] exit with
    code 1 after the error line "No rule file to load"; a rule path that
    resolves to something that is neither a file nor a directory makes
    [main] exit with code 1, and when the filters do not conflict the last
    thing it does is log an error whose text contains the rule path.  In
    both cases no goroutine is started and no source is subscribed to. *)
Theorem fatal_configuration_errors (cfg : Config) :
  versionFlag cfg = false ->
  (update cfg = false -> rulesPath cfg = "" ->
   outcome_of (main cfg) = Exit exitFail /\
   last (trace_of (main cfg)) = Some (LogError "No rule file to load") /\
   Forall (fun ev => usesEngine ev = false /\ monitors ev = false)
          (trace_of (main cfg))) /\
  (forall p realPath,
      outcome_of (updateDatabase (Value := Value) cfg) = Ret p -> p <> "" ->
      ResolveLink p = (realPath, None) ->
      IsFile realPath = false -> IsDir realPath = false ->
      outcome_of (main cfg) = Exit exitFail /\
      Forall (fun ev => monitors ev = false) (trace_of (main cfg)) /\
      (tagsVar cfg = [] \/ namesVar cfg = [] ->
       last (trace_of (main cfg))
         = Some (LogError ("Cannot resolve " +:+ p +:+ " to file or dir")) /\
       contains p ("Cannot resolve " +:+ p +:+ " to file or dir") = true)).
Proof.
  intros Hv. split.
  - intros Hu Hr.
    assert (Hp : updateDatabase (Value := Value) cfg = ([], Ret ""))
      by (unfold updateDatabase; rewrite Hu, Hr; reflexivity).
    pose proof (startup_update_Ret cfg "" Hv ltac:(rewrite Hp; reflexivity)) as Hs.
    rewrite configure_no_path, Hp in Hs.
    rewrite (main_Exit cfg exitFail) by (rewrite Hs; reflexivity).
    rewrite Hs. cbn [outcome_of trace_of fst snd].
    split; [reflexivity |]. split.
    + destruct (debug cfg); reflexivity.
    + destruct (debug cfg); repeat constructor.
  - intros p realPath Hp Hne Hr Hfile Hdir.
    destruct (updateDatabase_cases cfg) as [Hq _].
    pose proof (startup_update_Ret cfg p Hv Hp) as Hs.
    destruct (tagsVar cfg) as [|t ts] eqn:Ht; [| destruct (namesVar cfg) as [|n ns] eqn:Hn].
    3: {
      rewrite (configure_conflict cfg p Hne) in Hs by (rewrite ?Ht, ?Hn; discriminate).
      rewrite (main_Exit cfg exitFail) by (rewrite Hs; reflexivity).
      rewrite Hs. cbn [outcome_of trace_of fst snd].
      split; [reflexivity |]. split.
      - apply Forall_app. split; [apply debug_quiet; auto |].
        apply Forall_app. split; [apply quiet_monitors, quiet_weaken, Hq |
                                  repeat constructor].
      - intros [? | ?]; discriminate.
    }
    all: pose proof (configure_load cfg p realPath Hne
                       ltac:(rewrite ?Ht, ?Hn; auto) Hr) as Hc;
      cbv zeta in Hc; rewrite loadRules_unresolved in Hc by assumption;
      cbn [outcome_of trace_of fst snd app] in Hc; rewrite Hc in Hs;
      rewrite (main_Exit cfg exitFail) by (rewrite Hs; reflexivity);
      rewrite Hs; cbn [outcome_of trace_of fst snd];
      (split; [reflexivity |]); split;
      [ apply Forall_app; split; [apply debug_quiet; auto |];
        apply Forall_app; split; [apply quiet_monitors, quiet_weaken, Hq |
                                  repeat constructor]
      | intros _; split; [| apply contains_middle];
        rewrite app_assoc, last_app_cons; reflexivity ].
Qed.

(** C8.  Rule loading never stops the program.  When the rule path is a
    file, [e.Load] is called once, a failure is logged, and loading
    returns.  When it is a directory, a rule file whose load fails gets an
    error line naming the file and the error, and the walk goes on: every
    rule file of the walk is handed to [e.Load] whatever the earlier
    results were, there is one error line per failed load, and loading
    returns.  [main] then starts one worker per channel. *)
Theorem rule_loading_best_effort (e : E) (p realPath : string) :
  (IsFile realPath = true ->
   loadRules e p realPath =
     (CallLoad realPath (Load e realPath).2
      :: match (Load e realPath).2 with
         | Some err => [LogError err]
         | None => []
         end,
      Ret (Load e realPath).1)) /\
  (IsFile realPath = false -> IsDir realPath = true ->
   exists e',
     let tr := trace_of (loadRules e p realPath) in
     outcome_of (loadRules e p realPath) = Ret e' /\
     (loadCalls tr).*1 = ruleFiles (Walk realPath) /\
     List.length (filter (fun ev => isLogError ev = true) tr)
       = List.length (filter (fun c => failed c = true) (loadCalls tr))) /\
  (forall dir e1 fi err,
      allowListed fi = true -> (Load e1 (Join dir fi)).2 = Some err ->
      loadWalkFile dir e1 fi =
        ([LogDebug (GoFilepath.Ext fi);
          CallLoad (Join dir fi) (Some err);
          LogError ("Error loading " +:+ Join dir fi +:+ ": " +:+ err)],
         Ret (Load e1 (Join dir fi)).1)) /\
  (forall cfg,
      versionFlag cfg = false ->
      outcome_of (updateDatabase (Value := Value) cfg) = Ret p -> p <> "" ->
      tagsVar cfg = [] \/ namesVar cfg = [] ->
      ResolveLink p = (realPath, None) ->
      IsFile realPath = true \/ IsDir realPath = true ->
      exists e',
        outcome_of (main cfg) = Ret e' /\
        Forall (fun c => In (GoWorker c) (trace_of (main cfg))) (windowsChannels cfg)).
Proof.
  assert (Hfile : IsFile realPath = true ->
                  loadRules e p realPath = loadFile e realPath)
    by (unfold loadRules; intros ->; reflexivity).
  assert (Hdir : forall e0 : E, IsFile realPath = false -> IsDir realPath = true ->
                 loadRules e0 p realPath = loadDir e0 realPath)
    by (unfold loadRules; intros e0 -> ->; reflexivity).
  split; [| split; [| split]].
  - intros Hf. rewrite (Hfile Hf). apply loadFile_eq.
  - intros Hf Hd. rewrite (Hdir e Hf Hd). unfold loadDir.
    destruct (loaded_items (Walk realPath) e) as (e' & Hout & Hcalls & _ & Hlog & _).
    exists e'. cbv zeta. auto.
  - intros dir e1 fi err Hal Herr. rewrite loadWalkFile_eq, Hal, Herr. reflexivity.
  - intros cfg Hv Hp Hne Hfilt Hr Hkind.
    pose proof (startup_update_Ret cfg p Hv Hp) as Hs.
    pose proof (configure_load cfg p realPath Hne Hfilt Hr) as Hc. cbv zeta in Hc.
    set (e0 := SetFilters (NewEngine (trace cfg)) (namesVar cfg) (tagsVar cfg)) in *.
    assert (Hret : exists e', outcome_of (loadRules e0 p realPath) = Ret e').
    { destruct (IsFile realPath) eqn:Hf.
      - unfold loadRules. rewrite Hf, loadFile_eq. eauto.
      - destruct Hkind as [? | Hd]; [discriminate |].
        rewrite (Hdir e0 eq_refl Hd). unfold loadDir.
        destruct (loaded_items (Walk realPath) e0) as (e' & Hout & _). eauto. }
    destruct Hret as [e' Hret]. rewrite Hret in Hc. rewrite Hc in Hs.
    cbn [outcome_of snd] in Hs.
    exists e'. rewrite (main_Ret cfg e') by (rewrite Hs; reflexivity).
    split; [reflexivity |]. cbn [trace_of fst].
    apply Forall_forall. intros c Hin.
    apply in_or_app. right. apply in_or_app. right. right.
    apply list_elem_of_In, list_elem_of_fmap. eauto.
Qed.

End Startup.

(** Scenario C, and the run without a rule path. *)
Lemma fatal_configuration_errors_witness :
  outcome_of (@main _ _ Sample.plainEngine Sample.emptyWorld (Sample.config ""))
    = Exit 1 /\
  outcome_of (@main _ _ Sample.plainEngine Sample.emptyWorld (Sample.config "nowhere"))
    = Exit 1 /\
  last (trace_of (@main _ _ Sample.plainEngine Sample.emptyWorld
                    (Sample.config "nowhere")))
    = Some (LogError "Cannot resolve nowhere to file or dir").
Proof.
  split; [| split].
  - destruct (@fatal_configuration_errors _ _ Sample.plainEngine Sample.emptyWorld
                (Sample.config "") eq_refl) as [Hnone _].
    destruct (Hnone eq_refl eq_refl) as [Hexit _]. exact Hexit.
  - destruct (@fatal_configuration_errors _ _ Sample.plainEngine Sample.emptyWorld
                (Sample.config "nowhere") eq_refl) as [_ Hbad].
    destruct (Hbad "nowhere" "nowhere" eq_refl ltac:(discriminate)
                eq_refl eq_refl eq_refl) as [Hexit _]. exact Hexit.
  - destruct (@fatal_configuration_errors _ _ Sample.plainEngine Sample.emptyWorld
                (Sample.config "nowhere") eq_refl) as [_ Hbad].
    destruct (Hbad "nowhere" "nowhere" eq_refl ltac:(discriminate)
                eq_refl eq_refl eq_refl) as (_ & _ & Hmsg).
    destruct (Hmsg (or_introl eq_refl)) as [Hlast _]. exact Hlast.
Defined.

Example scenario_A :
  @startup _ _ Sample.plainEngine Sample.rulesWorld (Sample.config "rules")
  = ([CallNewEngine false; CallSetFilters [] []; CallResolveLink "rules";
      LogDebug ".gen"; CallLoad "rules\a.gen" None;
      LogDebug ".gene"; CallLoad "rules\b.gene" None;
      LogDebug ".txt";
      CallCount; LogInfo "Loaded 2 rules"],
     Ret ["rules\b.gene"; "rules\a.gen"]).
Proof. vm_compute. reflexivity. Qed.

(** A walk with one rule file that does not parse. *)
Lemma rule_loading_best_effort_witness :
  exists e',
    let r := @loadRules _ _ Sample.pickyEngine Sample.mixedWorld [] "rules" "rules" in
    outcome_of r = Ret e' /\
    (loadCalls (trace_of r)).*1
      = ["rules\a.gen"; "rules\broken.gen"; "rules\sub\b.gene"] /\
    List.length (filter (fun ev => isLogError ev = true) (trace_of r)) = 1%nat.
Proof.
  destruct (@rule_loading_best_effort _ _ Sample.pickyEngine Sample.mixedWorld
              [] "rules" "rules") as (_ & Hdir & _ & _).
  destruct (Hdir eq_refl eq_refl) as (e' & Hout & Hcalls & Hlog).
  exists e'. cbv zeta. split; [exact Hout |].
  split; [rewrite Hcalls | rewrite Hlog]; reflexivity.
Defined.

Example best_effort_run :
  @main _ _ Sample.pickyEngine Sample.mixedWorld (Sample.config "rules")
  = ([CallNewEngine false; CallSetFilters [] []; CallResolveLink "rules";
      LogDebug ".gen"; CallLoad "rules\a.gen" None;
      LogDebug ".gen"; CallLoad "rules\broken.gen" (Some "invalid rule file");
      LogError "Error loading rules\broken.gen: invalid rule file";
      LogDebug ".txt";
      LogDebug ".gene"; CallLoad "rules\sub\b.gene" None;
      CallCount; LogInfo "Loaded 2 rules";
      GoInterrupt; GoWorker "sysmon"],
     Ret ["rules\sub\b.gene"; "rules\a.gen"]).
Proof. vm_compute. reflexivity. Qed.

End StartupFacts.

(** ** The shared counters (lines 203, 245-251) *)

Module RaceFacts.
Import Race GoInt GoIntFacts.

Lemma run_app (a b : list nat) (s : Memory) :
  run (a ++ b) s = run a s ≫= run b.
Proof.
  revert s. induction a as [|i a IH]; intros s; simpl; [reflexivity |].
  destruct (stepThread i s); [apply IH | reflexivity].
Qed.

Lemma iter_incr (m : nat) (a : Z) :
  Nat.iter m incr (wrap a) = wrap (a + Z.of_nat m).
Proof.
  induction m as [|m IH]; simpl Nat.iter.
  - f_equal. lia.
  - rewrite IH, incr_wrap. f_equal. lia.
Qed.

(** A worker that is not interrupted between its read and its write counts
    each of its events. *)
Lemma run_serialThread (i k : nat) : forall s,
  threads s !! i = Some (fresh k) ->
  run (serialThread i k) s
  = Some {| eventCnt := Nat.iter k incr (eventCnt s);
            threads := <[i := fresh 0]> (threads s) |}.
Proof.
  induction k as [|k IH]; intros [c ths] Hi; simpl in Hi.
  - simpl. rewrite list_insert_id by exact Hi. reflexivity.
  - assert (Hlt : (i < List.length ths)%nat) by (eapply lookup_lt_Some; eauto).
    cbn [serialThread run]. unfold stepThread at 1. cbn [threads eventCnt].
    rewrite Hi. cbn [fresh].
    unfold stepThread at 1. cbn [threads eventCnt].
    rewrite list_lookup_insert_eq by exact Hlt.
    rewrite list_insert_insert_eq.
    rewrite IH; cbn [threads eventCnt].
    + rewrite list_insert_insert_eq. f_equal. f_equal.
      symmetry. apply Nat.iter_succ_r.
    + apply list_lookup_insert_eq. exact Hlt.
Qed.

Lemma run_serialFrom (n k : nat) : forall c pre,
  run (serialFrom (List.length pre) n k)
      {| eventCnt := c; threads := pre ++ replicate n (fresh k) |}
  = Some {| eventCnt := Nat.iter (n * k) incr c;
            threads := pre ++ replicate n (fresh 0) |}.
Proof.
  induction n as [|n IH]; intros c pre; [reflexivity |].
  cbn [serialFrom replicate]. rewrite run_app.
  rewrite run_serialThread
    by (cbn [threads]; apply list_lookup_middle; reflexivity).
  cbn [threads eventCnt mbind option_bind].
  replace (<[List.length pre := fresh 0]> (pre ++ fresh k :: replicate n (fresh k)))
    with ((pre ++ [fresh 0]) ++ replicate n (fresh k)).
  2: { rewrite insert_app_r_alt by lia. rewrite Nat.sub_diag. simpl.
       rewrite <- app_assoc. reflexivity. }
  replace (S (List.length pre)) with (List.length (pre ++ [fresh 0]))
    by (rewrite length_app; simpl; lia).
  rewrite IH. rewrite <- app_assoc. simpl. f_equal. f_equal.
  rewrite <- Nat.iter_add. f_equal. lia.
Qed.

(** With one worker after the other and no increment interrupted, [n]
    workers of [k] events leave [n * k] in [eventCnt]. *)
Lemma serial_count (n k : nat) :
  run (serialFrom 0 n k) (start n k)
  = Some {| eventCnt := wrap (Z.of_nat (n * k));
            threads := replicate n (fresh 0) |}.
Proof.
  pose proof (run_serialFrom n k 0 []) as Hrun. simpl in Hrun.
  unfold start. rewrite Hrun. f_equal. f_equal.
  change 0 with (wrap 0) at 1. rewrite iter_incr. f_equal.
Qed.

(** C4, at the failing schedule.  Two workers with one event each: both
    read [eventCnt = 0] before either writes, both write 1.  Every worker
    has finished, and [eventCnt] is 1, not 2. *)
Theorem lost_update :
  exists s,
    run [0; 1; 0; 1]%nat (start 2 1) = Some s /\
    finished s = true /\
    eventCnt s = 1 /\
    eventCnt s <> Z.of_nat (2 * 1).
Proof.
  eexists. split; [reflexivity |]. split; [reflexivity |].
  split; [reflexivity | discriminate].
Qed.

End RaceFacts.

(** ** The shutdown broadcast (lines 202-222) *)

Module ShutdownFacts.
Import Shutdown.
Local Open Scope nat_scope.

Local Abbreviation live := (fun w : WorkerSt => isListening w = true).

Lemma live_insert (l : list WorkerSt) : forall i w w',
  l !! i = Some w -> isListening w = true -> isListening w' = false ->
  List.length (filter live (<[i := w']> l)) + 1 = List.length (filter live l).
Proof.
  induction l as [|x l IH]; intros [|i] w w' Hi Hw Hw'; simpl in Hi; try discriminate.
  - injection Hi as ->. simpl. rewrite !filter_cons.
    destruct (decide (live w')) as [Hl|_]; [simpl in Hl; congruence |].
    destruct (decide (live w)) as [_|Hn]; [simpl; lia | contradiction].
  - simpl. rewrite !filter_cons. specialize (IH i w w' Hi Hw Hw').
    destruct (decide (live x)); simpl; lia.
Qed.

Lemma live_pos (l : list WorkerSt) i w :
  l !! i = Some w -> isListening w = true -> 1 <= List.length (filter live l).
Proof.
  intros Hi Hw.
  pose proof (live_insert l i w (close w) Hi Hw eq_refl). lia.
Qed.

Lemma watcher_set_eq src w s : watcher src (setWatcher src w s) = w.
Proof. destruct src; reflexivity. Qed.

Lemma watcher_set src src' w s :
  watcher src' (setWatcher src w s) = if decide (src' = src) then w else watcher src' s.
Proof. destruct src, src'; reflexivity. Qed.

Lemma workers_setWatcher src w s : workers (setWatcher src w s) = workers s.
Proof. destruct src; reflexivity. Qed.

Lemma watcher_setWorker src i w s : watcher src (setWorker i w s) = watcher src s.
Proof. destruct src; reflexivity. Qed.

Lemma listening_setWatcher src w s : listening (setWatcher src w s) = listening s.
Proof. unfold listening. rewrite workers_setWatcher. reflexivity. Qed.

(** The shapes a move can take. *)
Lemma act_cases (n : nat) (a : Action) (s s' : State) :
  act n a s = Some s' ->
  (exists src, watcher src s = Waiting /\ s' = setWatcher src (Sending n) s) \/
  (exists src k i w,
      watcher src s = Sending (S k) /\ workers s !! i = Some w /\
      isListening w = true /\
      s' = setWorker i (receive w) (setWatcher src (Sending k) s)) \/
  (exists i w,
      workers s !! i = Some w /\ isListening w = true /\
      s' = setWorker i (close w) s).
Proof.
  destruct a as [| |src i|i]; simpl; intros Hact.
  - destruct (timerW s) eqn:Ht; try discriminate. injection Hact as <-.
    left. exists Timer. auto.
  - destruct (interruptW s) eqn:Ht; try discriminate. injection Hact as <-.
    left. exists Signal. auto.
  - destruct (watcher src s) as [| |[|k]] eqn:Hw; try discriminate.
    destruct (workers s !! i) as [w|] eqn:Hi; try discriminate.
    destruct (isListening w) eqn:Hl; try discriminate. injection Hact as <-.
    right. left. exists src, k, i, w. auto.
  - destruct (workers s !! i) as [w|] eqn:Hi; try discriminate.
    destruct (isListening w) eqn:Hl; try discriminate. injection Hact as <-.
    right. right. exists i, w. auto.
Qed.

Lemma init_invariant (cfg : Config) :
  invariant (List.length (windowsChannels cfg)) (init cfg).
Proof.
  unfold invariant, init. cbn [workers]. split; [apply length_replicate |].
  split.
  - apply Forall_replicate. split; simpl; [lia | reflexivity].
  - intros src k. destruct src; simpl; [| discriminate].
    destruct (0 <? timeout cfg)%Z; discriminate.
Qed.

Lemma act_invariant (n : nat) (a : Action) (s s' : State) :
  invariant n s -> act n a s = Some s' -> invariant n s'.
Proof.
  intros (Hlen & Hwf & Hsend) Hact.
  destruct (act_cases n a s s' Hact)
    as [(src & Hw & ->) | [(src & k & i & w & Hw & Hi & Hl & ->) | (i & w & Hi & Hl & ->)]].
  - unfold invariant. rewrite workers_setWatcher, listening_setWatcher.
    split; [exact Hlen |]. split; [exact Hwf |].
    intros src' k. rewrite watcher_set. case_decide.
    + intros [= <-]. unfold listening. rewrite <- Hlen. apply length_filter.
    + apply Hsend.
  - pose proof (live_insert (workers s) i w (receive w) Hi Hl eq_refl) as Hdec.
    unfold invariant, listening in *. cbn [setWorker workers].
    rewrite workers_setWatcher.
    split; [rewrite length_insert; exact Hlen |]. split.
    + apply Forall_insert; [exact Hwf |].
      rewrite Forall_forall in Hwf.
      destruct (Hwf w) as [_ Hzero]; [eapply list_elem_of_lookup_2; eauto |].
      split; simpl; [rewrite (Hzero Hl); lia | discriminate].
    + intros src' k'. rewrite watcher_setWorker, watcher_set. case_decide.
      * intros [= <-]. specialize (Hsend src (S k) Hw). lia.
      * intros Hw'. specialize (Hsend src' k' Hw'). lia.
  - pose proof (live_insert (workers s) i w (close w) Hi Hl eq_refl) as Hdec.
    unfold invariant, listening in *. cbn [setWorker workers].
    split; [rewrite length_insert; exact Hlen |]. split.
    + apply Forall_insert; [exact Hwf |].
      rewrite Forall_forall in Hwf.
      destruct (Hwf w) as [Hle _]; [eapply list_elem_of_lookup_2; eauto |].
      split; simpl; [exact Hle | discriminate].
    + intros src' k'. rewrite watcher_setWorker.
      intros Hw'. specialize (Hsend src' k' Hw'). lia.
Qed.

Lemma reachable_invariant (cfg : Config) (s : State) :
  reachable cfg s -> invariant (List.length (windowsChannels cfg)) s.
Proof.
  unfold reachable. revert s. apply rtc_ind_r.
  - apply init_invariant.
  - intros s1 s2 _ [a Hact] IH. eapply act_invariant; eauto.
Qed.

(** Every move uses up one unit of the measure. *)
Lemma act_measure (n : nat) (a : Action) (s s' : State) :
  act n a s = Some s' -> measure s = S (measure s').
Proof.
  intros Hact.
  destruct (act_cases n a s s' Hact)
    as [(src & Hw & ->) | [(src & k & i & w & Hw & Hi & Hl & ->) | (i & w & Hi & Hl & ->)]].
  - unfold measure. rewrite listening_setWatcher.
    destruct src; simpl in *; rewrite Hw; simpl; lia.
  - pose proof (live_insert (workers s) i w (receive w) Hi Hl eq_refl) as Hdec.
    unfold measure, listening in *. cbn [setWorker workers timerW interruptW].
    rewrite workers_setWatcher.
    destruct src; simpl in *; rewrite Hw; simpl; lia.
  - pose proof (live_insert (workers s) i w (close w) Hi Hl eq_refl) as Hdec.
    unfold measure, listening in *. cbn [setWorker workers timerW interruptW]. lia.
Qed.

Lemma exec_measure (n : nat) (acts : list Action) : forall s s',
  exec n acts s = Some s' -> measure s = List.length acts + measure s'.
Proof.
  induction acts as [|a acts IH]; intros s s' Hex; simpl in Hex.
  - injection Hex as ->. reflexivity.
  - destruct (act n a s) as [s1|] eqn:Hact; [| discriminate].
    rewrite (act_measure n a s s1 Hact), (IH s1 s' Hex). simpl. lia.
Qed.

Lemma measure_bound (n : nat) (s : State) :
  List.length (workers s) = n -> measure s <= n + 2.
Proof.
  intros <-. unfold measure, listening.
  pose proof (length_filter live (workers s)).
  destruct (timerW s), (interruptW s); simpl; lia.
Qed.

(** Once no worker listens, the workers stay as they are. *)
Lemma act_quiet (n : nat) (a : Action) (s s' : State) :
  listening s = 0 -> act n a s = Some s' -> workers s' = workers s.
Proof.
  intros Hq Hact.
  destruct (act_cases n a s s' Hact)
    as [(src & Hw & ->) | [(src & k & i & w & Hw & Hi & Hl & ->) | (i & w & Hi & Hl & ->)]].
  - apply workers_setWatcher.
  - pose proof (live_pos (workers s) i w Hi Hl). unfold listening in Hq. lia.
  - pose proof (live_pos (workers s) i w Hi Hl). unfold listening in Hq. lia.
Qed.

Lemma rtc_quiet (n : nat) (s s' : State) :
  listening s = 0 -> rtc (step n) s s' -> workers s' = workers s.
Proof.
  intros Hq. revert s'. apply rtc_ind_r; [reflexivity |].
  intros s1 s2 _ [a Hact] IH.
  rewrite <- IH. apply (act_quiet n a); [| exact Hact].
  unfold listening. rewrite IH. exact Hq.
Qed.

Lemma delivered_bound (l : list WorkerSt) :
  Forall wellFormed l ->
  foldr (fun w acc => tokens w + acc) 0 l + List.length (filter live l)
  <= List.length l.
Proof.
  induction 1 as [|w l [Hle Hzero] _ IH]; simpl; [lia |].
  rewrite filter_cons. destruct (decide (live w)) as [Hl|_]; simpl.
  - rewrite (Hzero Hl). lia.
  - lia.
Qed.

End ShutdownFacts.

(** * Further properties *)

(** ** File names, aliases and the usage text (lines 81-99, 184-188, 234-236) *)

Module NameFacts.
Import GoStrings GoFilepath Spec Further.

Lemma append_cons (c : ascii) (a b : string) :
  String c a +:+ b = String c (a +:+ b).
Proof. reflexivity. Qed.

Lemma append_nil_r (s : string) : s +:+ "" = s.
Proof.
  induction s as [|c s IH]; [reflexivity |].
  rewrite append_cons, IH. reflexivity.
Qed.

(** Without a dot or a separator ahead, the scan keeps its candidate. *)
Lemma extFrom_plain (rest : string) : forall cand,
  noDotSep rest = true -> extFrom cand rest = default "" cand.
Proof.
  induction rest as [|c rest IH]; intros cand Hp; simpl in *; [reflexivity |].
  apply andb_true_iff in Hp as [Hp Hrest].
  apply andb_true_iff in Hp as [Hdot Hsep].
  apply negb_true_iff in Hdot. apply negb_true_iff in Hsep.
  rewrite Hdot, Hsep. apply IH, Hrest.
Qed.

(** A name that ends with a dot followed by plain text has that ending as
    its extension, whatever comes before. *)
Lemma extFrom_known (rest : string) (stem : string) : forall cand,
  noDotSep rest = true ->
  extFrom cand (stem +:+ String "."%char rest) = String "."%char rest.
Proof.
  induction stem as [|c stem IH]; intros cand Hp.
  - simpl. rewrite (extFrom_plain rest _ Hp). reflexivity.
  - simpl. destruct (Ascii.eqb c "."); [apply IH, Hp |].
    destruct (IsPathSeparator c); apply IH, Hp.
Qed.

(** The extension is the candidate the scan started with, or an ending of
    the text scanned. *)
Lemma extFrom_suffix (s : string) : forall cand,
  extFrom cand s = default "" cand \/ hasSuffix (extFrom cand s) s.
Proof.
  induction s as [|c s IH]; intros cand; [left; reflexivity |].
  simpl. destruct (Ascii.eqb c ".") eqn:Hdot.
  - right. destruct (IH (Some (String c s))) as [-> | [stem Hstem]].
    + exists "". reflexivity.
    + exists (String c stem). rewrite append_cons, <- Hstem. reflexivity.
  - destruct (IsPathSeparator c).
    + right. destruct (IH None) as [-> | [stem Hstem]].
      * exists (String c s). rewrite append_nil_r. reflexivity.
      * exists (String c stem). rewrite append_cons, <- Hstem. reflexivity.
    + destruct (IH cand) as [-> | [stem Hstem]]; [left; reflexivity |].
      right. exists (String c stem). rewrite append_cons, <- Hstem. reflexivity.
Qed.

Lemma Ext_suffix (path : string) : hasSuffix (Ext path) path.
Proof.
  unfold Ext. destruct (extFrom_suffix path None) as [-> | Hs]; [| exact Hs].
  exists path. symmetry. apply append_nil_r.
Qed.

(** X1.  In the directory walk a file is handed to the engine exactly when
    its name ends with [.gen] or with [.gene], in this spelling; what comes
    before the ending (other dots, directories, nothing at all) plays no
    part. *)
Theorem rule_file_by_suffix (fi : string) :
  allowListed fi = true <-> hasSuffix ".gen" fi \/ hasSuffix ".gene" fi.
Proof.
  unfold allowListed, ruleExts. rewrite bool_decide_eq_true. split.
  - intros Hin. pose proof (Ext_suffix fi) as Hs.
    apply elem_of_cons in Hin as [Heq | Hin]; [left; rewrite <- Heq; exact Hs |].
    apply elem_of_cons in Hin as [Heq | Hin]; [right; rewrite <- Heq; exact Hs |].
    inversion Hin.
  - intros [[stem ->] | [stem ->]]; unfold Ext.
    + rewrite (extFrom_known "gen" stem None eq_refl). apply list_elem_of_here.
    + rewrite (extFrom_known "gene" stem None eq_refl).
      apply list_elem_of_further, list_elem_of_here.
Qed.

Section Aliases.
Context `{!World}.

Lemma alias_values (k c : string) :
  channelAliases !! k = Some c ->
  c = "Microsoft-Windows-Sysmon/Operational" \/ c = "Security".
Proof.
  unfold channelAliases. intros Hk.
  apply lookup_insert_Some in Hk as [[_ <-] | [_ Hk]]; [left; reflexivity |].
  apply lookup_insert_Some in Hk as [[_ <-] | [_ Hk]]; [right; reflexivity |].
  rewrite lookup_empty in Hk. discriminate.
Qed.

(** X2.  Resolving a channel name twice gives what resolving it once gives:
    the channel names the aliases stand for resolve to themselves.  The
    result is the name as given or one of the two channel names of the
    table. *)
Theorem resolveAlias_idempotent (s : string) :
  resolveAlias (resolveAlias s) = resolveAlias s /\
  (resolveAlias s = s \/
   resolveAlias s = "Microsoft-Windows-Sysmon/Operational" \/
   resolveAlias s = "Security").
Proof.
  unfold resolveAlias at 2 3 4 5 6.
  destruct (channelAliases !! ToLower mapUnicodeLower s) as [c|] eqn:Hk.
  - destruct (alias_values _ c Hk) as [-> | ->]; split; auto; reflexivity.
  - split; [| left; reflexivity].
    unfold resolveAlias. rewrite Hk. reflexivity.
Qed.

End Aliases.

Lemma hasPrefix_refl (s : string) : hasPrefix s s = true.
Proof.
  induction s as [|c s IH]; simpl; [reflexivity |].
  rewrite Ascii.eqb_refl. exact IH.
Qed.

Lemma join_contains (sep x : string) (l : list string) :
  x ∈ l -> contains x (Join_strings l sep) = true.
Proof.
  induction l as [|y l IH]; intros Hin; [inversion Hin |].
  apply elem_of_cons in Hin as [-> | Hin].
  - destruct l as [|z l]; simpl Join_strings.
    + apply StartupFacts.contains_prefix, hasPrefix_refl.
    + apply StartupFacts.contains_prefix, StartupFacts.prefix_app.
  - destruct l as [|z l]; [inversion Hin |].
    change (Join_strings (y :: z :: l) sep)
      with (y +:+ sep +:+ Join_strings (z :: l) sep).
    apply StartupFacts.contains_app_r, StartupFacts.contains_app_r, IH, Hin.
Qed.

(** X3.  Whatever order the map iteration takes, the alias text of the
    usage message holds the line of every entry of the table, built as a
    tab, a tab, the alias, [" : "] and the channel name; for an empty table
    the text is empty. *)
Theorem fmtAliases_lists_every_alias (m : gmap string string)
    (order : list (string * string)) :
  order ≡ₚ map_to_list m ->
  (forall alias channel,
      m !! alias = Some channel ->
      contains (aliasLine alias channel) (fmtAliases order) = true) /\
  (m = ∅ -> fmtAliases order = "").
Proof.
  intros Hperm. split.
  - intros alias channel Hm. unfold fmtAliases. apply join_contains.
    apply list_elem_of_fmap. exists (alias, channel). split; [reflexivity |].
    rewrite Hperm. apply elem_of_map_to_list. exact Hm.
  - intros ->. rewrite map_to_list_empty in Hperm.
    apply Permutation_nil_r in Hperm. subst order. reflexivity.
Qed.

Lemma rule_file_by_suffix_witness :
  allowListed "rules\windows.sysmon.gen" = true /\ allowListed ".gene" = true.
Proof.
  split.
  - apply (proj2 (rule_file_by_suffix _)). left.
    exists "rules\windows.sysmon". reflexivity.
  - apply (proj2 (rule_file_by_suffix _)). right. exists "". reflexivity.
Defined.

Lemma fmtAliases_lists_every_alias_witness :
  contains (aliasLine "sysmon" "Microsoft-Windows-Sysmon/Operational")
           (fmtAliases (map_to_list channelAliases)) = true.
Proof.
  destruct (fmtAliases_lists_every_alias channelAliases
              (map_to_list channelAliases) (reflexivity _)) as [Hline _].
  apply Hline. reflexivity.
Defined.

End NameFacts.

(** ** Ways out of [main] (lines 120-198) *)

Module ExitFacts.
Import Proc ProcFacts Spec Further StartupFacts.

Section Exits.
Context {Value E : Type}.
Context `{!GeneEngine E Value, !World}.

Lemma main_version (cfg : Config) :
  versionFlag cfg = true -> main cfg = ([PrintInfo], Exit exitSuccess).
Proof. intros Hv. unfold main, startup. rewrite Hv. reflexivity. Qed.

Lemma updateDatabase_Exit (cfg : Config) (c : Z) :
  outcome_of (updateDatabase (Value := Value) cfg) = Exit c ->
  c = exitFail /\
  exists msg, last (trace_of (updateDatabase (Value := Value) cfg))
              = Some (LogError msg).
Proof.
  unfold updateDatabase, exitOnError, LogErrorAndExit.
  destruct (update cfg); [| discriminate].
  destruct (HTTPGet geneRulesRepo databaseZip) as [err1|].
  { simpl. intros [= <-]. eauto. }
  destruct (Unzip databaseZip databasePath) as [err2|].
  { simpl. intros [= <-]. eauto. }
  discriminate.
Qed.

Lemma configure_resolve_error (cfg : Config) (p realPath : string) (err : error) :
  p <> "" -> tagsVar cfg = [] \/ namesVar cfg = [] ->
  ResolveLink p = (realPath, Some err) ->
  configure cfg p =
    ([CallNewEngine (trace cfg);
      CallSetFilters (namesVar cfg) (tagsVar cfg);
      CallResolveLink p;
      LogError err],
     Exit exitFail).
Proof.
  intros Hp Hf Hr. unfold configure.
  rewrite (eqb_empty_false p Hp), (no_conflict_check cfg Hf), Hr. reflexivity.
Qed.

Lemma load_effect_quiet (ev : Effect Value) :
  isLoadEffect ev = true -> monitors ev = false.
Proof. destruct ev; simpl; congruence. Qed.

(** Rule loading starts nothing, and leaves only through the error of the
    [default] branch. *)
Lemma loadRules_shape (e : E) (p realPath : string) :
  Forall (fun ev => monitors ev = false) (trace_of (loadRules e p realPath)) /\
  (forall c,
      outcome_of (loadRules e p realPath) = Exit c ->
      c = exitFail /\
      exists msg, last (trace_of (loadRules e p realPath)) = Some (LogError msg)).
Proof.
  unfold loadRules. destruct (IsFile realPath).
  - rewrite loadFile_eq. split; [| discriminate].
    cbn [trace_of fst]. destruct (Load e realPath).2; repeat constructor.
  - destruct (IsDir realPath).
    + unfold loadDir.
      destruct (loaded_items (Walk realPath) e) as (e' & Hout & _ & Hload & _).
      split; [| rewrite Hout; discriminate].
      eapply Forall_impl; [exact Hload | apply load_effect_quiet].
    + split; [repeat constructor |]. simpl. intros c [= <-]. eauto.
Qed.

Lemma configure_shape (cfg : Config) (p : string) :
  Forall (fun ev => monitors ev = false) (trace_of (configure cfg p)) /\
  (forall c,
      outcome_of (configure cfg p) = Exit c ->
      c = exitFail /\
      exists msg, last (trace_of (configure cfg p)) = Some (LogError msg)).
Proof.
  destruct (decide (p = "")) as [-> | Hp].
  { rewrite configure_no_path. split; [repeat constructor |].
    simpl. intros c [= <-]. eauto. }
  destruct (tagsVar cfg) as [|t ts] eqn:Ht; [| destruct (namesVar cfg) as [|n ns] eqn:Hn].
  3: { rewrite (configure_conflict cfg p Hp) by (rewrite ?Ht, ?Hn; discriminate).
       split; [repeat constructor |]. simpl. intros c [= <-]. eauto. }
  all: assert (Hf : tagsVar cfg = [] \/ namesVar cfg = [])
         by (rewrite ?Ht, ?Hn; auto);
    destruct (ResolveLink p) as [realPath [err|]] eqn:Hr;
    [ rewrite (configure_resolve_error cfg p realPath err Hp Hf Hr);
      split; [repeat constructor |]; simpl; intros c [= <-]; eauto
    | pose proof (configure_load cfg p realPath Hp Hf Hr) as Hc; cbv zeta in Hc;
      rewrite Hc; cbn [trace_of outcome_of fst snd];
      match goal with
      | |- context [loadRules ?e0 ?q ?r] =>
          destruct (loadRules_shape e0 q r) as [Hq Hex];
          destruct (outcome_of (loadRules e0 q r)) as [e'|c'] eqn:Ho
      end;
      [ split; [| discriminate];
        repeat (apply Forall_app; split); [repeat constructor | exact Hq |
                                           repeat constructor]
      | split;
        [ repeat (apply Forall_app; split); [repeat constructor | exact Hq |
                                             constructor]
        | intros c [= <-]; destruct (Hex c' eq_refl) as [-> [msg Hlast]];
          split; [reflexivity |]; exists msg;
          rewrite app_nil_r, last_app, Hlast; reflexivity ] ] ].
Qed.

Lemma updateDatabase_quiet (cfg : Config) :
  Forall (fun ev => monitors ev = false)
         (trace_of (updateDatabase (Value := Value) cfg)).
Proof.
  destruct (updateDatabase_cases (Value := Value) cfg) as [Hq _].
  apply quiet_monitors, quiet_weaken, Hq.
Qed.

(** Past [flag.Parse], [main] leaves early with [-v] (code 0, the version
    text and nothing else) or with code 1 right after an error line; no
    goroutine has been started then. *)
Lemma main_early_exit (cfg : Config) (c : Z) :
  outcome_of (main cfg) = Exit c ->
  Forall (fun ev => monitors ev = false) (trace_of (main cfg)) /\
  ((versionFlag cfg = true /\ c = exitSuccess /\ trace_of (main cfg) = [PrintInfo]) \/
   (versionFlag cfg = false /\ c = exitFail /\
    exists msg, last (trace_of (main cfg)) = Some (LogError msg))).
Proof.
  intros Hout. destruct (versionFlag cfg) eqn:Hv.
  { rewrite (main_version cfg Hv) in *. simpl in Hout. injection Hout as <-.
    split; [repeat constructor | left; auto]. }
  destruct (outcome_of (updateDatabase (Value := Value) cfg)) as [p|c0] eqn:Hu.
  - pose proof (startup_update_Ret cfg p Hv Hu) as Hs.
    destruct (configure_shape cfg p) as [Hq Hex].
    destruct (outcome_of (configure cfg p)) as [e|c1] eqn:Hc.
    + rewrite (main_Ret cfg e) in Hout by (rewrite Hs; reflexivity). discriminate.
    + rewrite (main_Exit cfg c1) in * by (rewrite Hs; reflexivity).
      simpl in Hout. injection Hout as <-.
      destruct (Hex c1 eq_refl) as [-> [msg Hlast]].
      rewrite Hs. cbn [trace_of fst]. split.
      * apply Forall_app. split; [apply debug_quiet; reflexivity |].
        apply Forall_app. split; [apply updateDatabase_quiet | exact Hq].
      * right. split; [reflexivity |]. split; [reflexivity |]. exists msg.
        rewrite !last_app, Hlast. reflexivity.
  - pose proof (startup_update_Exit cfg c0 Hv Hu) as Hs.
    destruct (updateDatabase_Exit cfg c0 Hu) as [-> [msg Hlast]].
    rewrite (main_Exit cfg exitFail) in * by (rewrite Hs; reflexivity).
    simpl in Hout. injection Hout as <-.
    rewrite Hs. cbn [trace_of fst]. split.
    + apply Forall_app. split; [apply debug_quiet; reflexivity |].
      apply updateDatabase_quiet.
    + right. split; [reflexivity |]. split; [reflexivity |]. exists msg.
      rewrite last_app, Hlast. reflexivity.
Qed.

(** X5.  With [-u] the value of [-r] plays no part: [main] does the same
    whatever rule path was given, and the rule path it goes on with, when
    the download and the unpacking succeed, is the database directory. *)
Theorem update_overrides_rule_path (cfg : Config) :
  update cfg = true ->
  (forall path, main (withRulesPath cfg path) = main cfg) /\
  (forall p, outcome_of (updateDatabase (Value := Value) cfg) = Ret p ->
             p = databasePath).
Proof.
  intros Hu. split.
  - intros path. unfold main, startup, updateDatabase. cbn [withRulesPath update].
    rewrite Hu. reflexivity.
  - intros p. unfold updateDatabase, exitOnError, LogErrorAndExit. rewrite Hu.
    destruct (HTTPGet geneRulesRepo databaseZip); [discriminate |].
    destruct (Unzip databaseZip databasePath); [discriminate |].
    simpl. congruence.
Qed.

(** X6.  With [-u], a failed download ends the run with code 1 after the
    line "Could not download latest gene-rules: ..." without unpacking
    anything; a failed unpacking ends it with code 1 after the line "Could
    not unzip latest gene-rules: ...".  In both cases the engine has not
    been constructed and the rule path has not been looked at. *)
Theorem update_failures (cfg : Config) :
  versionFlag cfg = false -> update cfg = true ->
  (forall err,
      HTTPGet geneRulesRepo databaseZip = Some err ->
      main cfg =
        ((if debug cfg then [InitLogger] else [])
         ++ [LogInfo ("Downloading rules from: " +:+ geneRulesRepo);
             CallHTTPGet geneRulesRepo databaseZip;
             LogError ("Could not download latest gene-rules: " +:+ err)],
         Exit exitFail)) /\
  (forall err,
      HTTPGet geneRulesRepo databaseZip = None ->
      Unzip databaseZip databasePath = Some err ->
      main cfg =
        ((if debug cfg then [InitLogger] else [])
         ++ [LogInfo ("Downloading rules from: " +:+ geneRulesRepo);
             CallHTTPGet geneRulesRepo databaseZip;
             CallUnzip databaseZip databasePath;
             LogError ("Could not unzip latest gene-rules: " +:+ err)],
         Exit exitFail)).
Proof.
  intros Hv Hu. split.
  - intros err Hget.
    assert (Hup : updateDatabase (Value := Value) cfg =
              ([LogInfo ("Downloading rules from: " +:+ geneRulesRepo);
                CallHTTPGet geneRulesRepo databaseZip;
                LogError ("Could not download latest gene-rules: " +:+ err)],
               Exit exitFail))
      by (unfold updateDatabase; rewrite Hu, Hget; reflexivity).
    pose proof (startup_update_Exit cfg exitFail Hv ltac:(rewrite Hup; reflexivity)) as Hs.
    rewrite (main_Exit cfg exitFail) by (rewrite Hs; reflexivity).
    rewrite Hs, Hup. reflexivity.
  - intros err Hget Hzip.
    assert (Hup : updateDatabase (Value := Value) cfg =
              ([LogInfo ("Downloading rules from: " +:+ geneRulesRepo);
                CallHTTPGet geneRulesRepo databaseZip;
                CallUnzip databaseZip databasePath;
                LogError ("Could not unzip latest gene-rules: " +:+ err)],
               Exit exitFail))
      by (unfold updateDatabase; rewrite Hu, Hget, Hzip; reflexivity).
    pose proof (startup_update_Exit cfg exitFail Hv ltac:(rewrite Hup; reflexivity)) as Hs.
    rewrite (main_Exit cfg exitFail) by (rewrite Hs; reflexivity).
    rewrite Hs, Hup. reflexivity.
Qed.

Lemma loadCalls_app (a b : list (Effect Value)) :
  loadCalls (a ++ b) = loadCalls a ++ loadCalls b.
Proof. unfold loadCalls. apply omap_app. Qed.

Lemma quiet_no_loads (tr : list (Effect Value)) :
  Forall (fun ev => constructsEngine ev = false /\ usesEngine ev = false
                    /\ monitors ev = false) tr ->
  loadCalls tr = [].
Proof.
  induction 1 as [|ev tr (_ & Huse & _) _ IH]; [reflexivity |].
  destruct ev; simpl in Huse; try discriminate; exact IH.
Qed.

(** X7.  When [fsutil.ResolveLink] fails on the rule path, [main] logs
    that error and exits with code 1; the engine has been constructed and
    given its filters, but no rule file has been handed to it and nothing
    has been started. *)
Theorem resolve_link_error (cfg : Config) (p realPath : string) (err : error) :
  versionFlag cfg = false ->
  outcome_of (updateDatabase (Value := Value) cfg) = Ret p -> p <> "" ->
  tagsVar cfg = [] \/ namesVar cfg = [] ->
  ResolveLink p = (realPath, Some err) ->
  outcome_of (main cfg) = Exit exitFail /\
  last (trace_of (main cfg)) = Some (LogError err) /\
  loadCalls (trace_of (main cfg)) = [] /\
  In (CallSetFilters (namesVar cfg) (tagsVar cfg)) (trace_of (main cfg)).
Proof.
  intros Hv Hu Hp Hf Hr.
  pose proof (startup_update_Ret cfg p Hv Hu) as Hs.
  rewrite (configure_resolve_error cfg p realPath err Hp Hf Hr) in Hs.
  rewrite (main_Exit cfg exitFail) by (rewrite Hs; reflexivity).
  rewrite Hs. cbn [outcome_of trace_of fst snd].
  split; [reflexivity |]. split; [| split].
  - rewrite app_assoc, last_app_cons. reflexivity.
  - destruct (updateDatabase_cases (Value := Value) cfg) as [Hq _].
    rewrite !loadCalls_app, (quiet_no_loads _ Hq).
    destruct (debug cfg); reflexivity.
  - apply in_or_app. right. apply in_or_app. right. simpl. auto.
Qed.

End Exits.

Lemma update_overrides_rule_path_witness :
  @main _ _ Sample.plainEngine offline (withRulesPath updating "elsewhere")
  = @main _ _ Sample.plainEngine offline updating.
Proof.
  destruct (@update_overrides_rule_path _ _ Sample.plainEngine offline updating eq_refl)
    as [Hsame _].
  apply Hsame.
Defined.

Lemma update_failures_witness :
  @main _ _ Sample.plainEngine offline updating
  = ([LogInfo "Downloading rules from: https://github.com/0xrawsec/gene-rules/archive/master.zip";
      CallHTTPGet geneRulesRepo databaseZip;
      LogError "Could not download latest gene-rules: no route to host"],
     Exit 1) /\
  outcome_of (@main _ _ Sample.plainEngine brokenZip updating) = Exit 1.
Proof.
  split.
  - destruct (@update_failures _ _ Sample.plainEngine offline updating eq_refl eq_refl)
      as [Hget _].
    rewrite (Hget "no route to host" eq_refl). reflexivity.
  - destruct (@update_failures _ _ Sample.plainEngine brokenZip updating eq_refl eq_refl)
      as [_ Hzip].
    rewrite (Hzip "zip: not a valid zip file" eq_refl eq_refl). reflexivity.
Defined.

Lemma resolve_link_error_witness :
  last (trace_of (@main _ _ Sample.plainEngine dangling (Sample.config "rules.lnk")))
  = Some (LogError "readlink rules.lnk: no such file").
Proof.
  destruct (@resolve_link_error _ _ Sample.plainEngine dangling
              (Sample.config "rules.lnk") "rules.lnk" ""
              "readlink rules.lnk: no such file"
              eq_refl eq_refl ltac:(discriminate) (or_introl eq_refl) eq_refl)
    as (_ & Hlast & _).
  exact Hlast.
Defined.

End ExitFacts.

(** ** What a worker prints (lines 239-252) *)

Module OutputFacts.
Import Proc ProcFacts GoInt GoIntFacts Spec Further WorkerFacts.

Section Output.
Context {XMLEvent JSONEvent Value E : Type}.
Context `{!JSONCodec XMLEvent JSONEvent Value, !GeneEngine E Value, !World}.

Local Abbreviation loop e thresh cnt events :=
  (foldM (handleEvent e thresh) cnt events).

(** The line [fmt.Println] writes for an event. *)
Local Abbreviation lineOf :=
  (fun xe : XMLEvent => evtx_ToJSON (XMLEventToGoEvtxMap xe).1).

Lemma printed_app (a b : list (Effect Value)) :
  printed (a ++ b) = printed a ++ printed b.
Proof. unfold printed. apply omap_app. Qed.

Lemma handleEvent_Ret (e : E) (thresh : Z) (cnt : Counters) (xe : XMLEvent) :
  exists cnt', outcome_of (handleEvent e thresh cnt xe) = Ret cnt'.
Proof.
  pose proof (handleEvent_eq e thresh cnt xe) as Heq. cbv zeta in Heq.
  rewrite Heq. eexists. reflexivity.
Qed.

Lemma printed_handleEvent (e : E) (thresh : Z) (cnt : Counters) (xe : XMLEvent) :
  printed (trace_of (handleEvent e thresh cnt xe))
  = if alerting thresh (Match e (XMLEventToGoEvtxMap xe).1)
    then [lineOf xe] else [].
Proof.
  pose proof (handleEvent_eq e thresh cnt xe) as Heq. cbv zeta in Heq.
  rewrite Heq. cbn [trace_of fst]. rewrite printed_app.
  destruct (XMLEventToGoEvtxMap xe).2;
    destruct (alerting thresh (Match e (XMLEventToGoEvtxMap xe).1)); reflexivity.
Qed.

Lemma printed_loop (e : E) (thresh : Z) (events : list XMLEvent) : forall cnt,
  printed (trace_of (loop e thresh cnt events))
  = lineOf <$> alertEvents e thresh events.
Proof.
  induction events as [|xe events IH]; intros cnt; [reflexivity |].
  cbn [foldM].
  destruct (handleEvent_Ret e thresh cnt xe) as [cnt1 H1].
  destruct (bind_Ret _ (fun s' => loop e thresh s' events) _ H1) as [-> _].
  rewrite printed_app, printed_handleEvent, IH.
  unfold alertEvents. rewrite filter_cons.
  destruct (decide (alerting thresh (Match e (XMLEventToGoEvtxMap xe).1) = true))
    as [-> | Hno]; [reflexivity |].
  apply not_true_is_false in Hno. rewrite Hno. reflexivity.
Qed.

Lemma printed_worker (e : E) (thresh : Z) winChan events cnt :
  printed (trace_of (worker e thresh winChan events cnt))
  = lineOf <$> alertEvents e thresh events.
Proof.
  rewrite (proj2 (worker_outcome e thresh winChan events cnt)).
  change (printed (?a :: ?b :: ?tr)) with (printed tr).
  apply printed_loop.
Qed.

Lemma alerting_mono (t1 t2 : Z) (res : list string * Z) :
  t1 <= t2 -> alerting t2 res = true -> alerting t1 res = true.
Proof. rewrite !alerting_iff. intros Hle [Hn Ht]. split; [exact Hn | lia]. Qed.

Lemma alertEvents_sublist (e : E) (t1 t2 : Z) (events : list XMLEvent) :
  t1 <= t2 -> alertEvents e t2 events `sublist_of` alertEvents e t1 events.
Proof.
  intros Hle. unfold alertEvents.
  rewrite <- (list_filter_filter_l
                (fun xe => alerting t2 (Match e (XMLEventToGoEvtxMap xe).1) = true)
                (fun xe => alerting t1 (Match e (XMLEventToGoEvtxMap xe).1) = true)).
  - apply sublist_filter.
  - intros xe. apply alerting_mono, Hle.
Qed.

(** X9.  Raising the threshold never adds an alert: for thresholds
    [t1 <= t2] and the same stream, the lines printed with [t2] are a
    subsequence of the lines printed with [t1]. *)
Theorem higher_threshold_fewer_alerts (e : E) (t1 t2 : Z) (winChan : string)
    (events : list XMLEvent) (cnt : Counters) :
  t1 <= t2 ->
  printed (trace_of (worker e t2 winChan events cnt))
    `sublist_of` printed (trace_of (worker e t1 winChan events cnt)).
Proof.
  intros Hle. rewrite !printed_worker.
  apply fmap_sublist, alertEvents_sublist, Hle.
Qed.

End Output.

Lemma higher_threshold_fewer_alerts_witness :
  printed (trace_of (@worker _ _ _ _ Sample.codec
                       (Sample.engine [] Sample.mimikatzRule) Sample.emptyWorld
                       [] 8 "sysmon" Sample.stream
                       {| eventCnt := 0; alertsCnt := 0 |}))
  `sublist_of`
  printed (trace_of (@worker _ _ _ _ Sample.codec
                       (Sample.engine [] Sample.mimikatzRule) Sample.emptyWorld
                       [] 5 "sysmon" Sample.stream
                       {| eventCnt := 0; alertsCnt := 0 |})).
Proof.
  apply (@higher_threshold_fewer_alerts _ _ _ _ Sample.codec
           (Sample.engine [] Sample.mimikatzRule) Sample.emptyWorld
           [] 5 8 "sysmon" Sample.stream). lia.
Defined.

End OutputFacts.

(** ** Tokens on the [signals] channel (lines 202-222) *)

Module TokenFacts.
Import Shutdown ShutdownFacts Further.
Local Open Scope nat_scope.

Local Abbreviation live := (fun w : WorkerSt => isListening w = true).
Local Abbreviation total :=
  (foldr (fun (w : WorkerSt) acc => tokens w + acc) 0).

Lemma total_insert (l : list WorkerSt) : forall i w w',
  l !! i = Some w -> total (<[i := w']> l) + tokens w = total l + tokens w'.
Proof.
  induction l as [|x l IH]; intros [|i] w w' Hi; simpl in Hi; try discriminate.
  - injection Hi as ->. simpl. lia.
  - simpl. specialize (IH i w w' Hi). lia.
Qed.

Lemma total_replicate (n : nat) (w : WorkerSt) :
  tokens w = 0 -> total (replicate n w) = 0.
Proof. intros Hw. induction n as [|n IH]; simpl; lia. Qed.

Lemma init_conserved (cfg : Config) :
  conserved (List.length (windowsChannels cfg)) (init cfg).
Proof.
  unfold conserved, init, delivered. cbn [workers timerW interruptW]. split.
  - intros [] k; simpl; [destruct (0 <? timeout cfg)%Z |]; discriminate.
  - rewrite total_replicate by reflexivity.
    destruct (0 <? timeout cfg)%Z; reflexivity.
Qed.

Lemma act_conserved (n : nat) (a : Action) (s s' : State) :
  conserved n s -> act n a s = Some s' -> conserved n s'.
Proof.
  intros [Hle Hsum] Hact.
  destruct (act_cases n a s s' Hact)
    as [(src & Hw & ->) | [(src & k & i & w & Hw & Hi & Hl & ->) | (i & w & Hi & Hl & ->)]].
  - split.
    + intros src' k. rewrite watcher_set. case_decide; [intros [= <-]; lia | apply Hle].
    + unfold delivered in *. rewrite workers_setWatcher, Hsum.
      destruct src; simpl in *; rewrite Hw; simpl; lia.
  - pose proof (Hle src (S k) Hw) as Hk.
    pose proof (total_insert (workers s) i w (receive w) Hi) as Hins.
    split.
    + intros src' k'. rewrite watcher_setWorker, watcher_set.
      case_decide; [intros [= <-]; lia | apply Hle].
    + unfold delivered in *. cbn [setWorker workers timerW interruptW].
      rewrite workers_setWatcher. simpl tokens in Hins.
      destruct src; simpl in *; rewrite Hw in *; cbn [sent] in *; lia.
  - pose proof (total_insert (workers s) i w (close w) Hi) as Hins.
    split.
    + intros src' k'. rewrite watcher_setWorker. apply Hle.
    + unfold delivered in *. cbn [setWorker workers timerW interruptW].
      simpl tokens in Hins. lia.
Qed.

Lemma reachable_conserved (cfg : Config) (s : State) :
  reachable cfg s -> conserved (List.length (windowsChannels cfg)) s.
Proof.
  unfold reachable. revert s. apply rtc_ind_r.
  - apply init_conserved.
  - intros s1 s2 _ [a Hact] IH. eapply act_conserved; eauto.
Qed.

(** Without [-timeout] there is no timer goroutine, now or later. *)
Lemma reachable_no_timer (cfg : Config) (s : State) :
  (timeout cfg <= 0)%Z -> reachable cfg s -> timerW s = Absent.
Proof.
  intros Ht. unfold reachable. revert s. apply rtc_ind_r.
  - unfold init. simpl. destruct (Z.ltb_spec 0 (timeout cfg)); [lia | reflexivity].
  - intros s1 s2 _ [a Hact] IH.
    destruct (act_cases _ a s1 s2 Hact)
      as [(src & Hw & ->) | [(src & k & i & w & Hw & Hi & Hl & ->) | (i & w & Hi & Hl & ->)]].
    + destruct src; simpl in *; [congruence | exact IH].
    + destruct src; simpl in *; [congruence | exact IH].
    + exact IH.
Qed.

(** X11.  No token is lost or made up on the way: in every reachable
    state the stop tokens the workers have taken are exactly the sends the
    two broadcasters have completed.  So before a trigger fires no worker
    has been stopped by a token, and without [-timeout] every token a
    worker holds comes from the interrupt goroutine. *)
Theorem tokens_conserved (cfg : Config) (s : State) :
  reachable cfg s ->
  let n := List.length (windowsChannels cfg) in
  delivered s = sent n (timerW s) + sent n (interruptW s) /\
  ((forall src k, watcher src s <> Sending k) ->
   Forall (fun w => tokens w = 0) (workers s)) /\
  ((timeout cfg <= 0)%Z -> delivered s = sent n (interruptW s)).
Proof.
  intros Hr n. destruct (reachable_conserved cfg s Hr) as [_ Hsum]. fold n in Hsum.
  split; [exact Hsum |]. split.
  - intros Hnone.
    assert (Hzero : delivered s = 0).
    { rewrite Hsum.
      pose proof (Hnone Timer) as Ht. pose proof (Hnone Signal) as Hi.
      simpl in Ht, Hi.
      destruct (timerW s); [| | exfalso; eapply Ht; reflexivity];
        (destruct (interruptW s); [| | exfalso; eapply Hi; reflexivity]);
        reflexivity. }
    unfold delivered in Hzero. clear -Hzero.
    induction (workers s) as [|w l IH]; [constructor |].
    simpl in Hzero. constructor; [lia | apply IH; lia].
  - intros Ht. rewrite Hsum, (reachable_no_timer cfg s Ht Hr). reflexivity.
Qed.

(** X12.  When both triggers have fired, the two broadcasters together
    are left with at least as many sends as there are workers, at every
    moment: with one channel or more, they never both get to the end of
    their loops. *)
Theorem second_broadcast_never_completes (cfg : Config) (s : State) (kt ki : nat) :
  reachable cfg s ->
  timerW s = Sending kt -> interruptW s = Sending ki ->
  List.length (windowsChannels cfg) <= kt + ki /\
  (windowsChannels cfg <> [] -> ~ (kt = 0 /\ ki = 0)).
Proof.
  intros Hr Ht Hi.
  destruct (reachable_conserved cfg s Hr) as [Hle Hsum].
  destruct (reachable_invariant cfg s Hr) as (Hlen & Hwf & _).
  pose proof (delivered_bound (workers s) Hwf) as Hb.
  pose proof (Hle Timer kt Ht) as Hkt. pose proof (Hle Signal ki Hi) as Hki.
  unfold delivered in Hsum. rewrite Ht, Hi in Hsum. simpl in Hsum.
  rewrite Hlen in Hb.
  assert (Hn : List.length (windowsChannels cfg) <= kt + ki) by lia.
  split; [exact Hn |].
  intros Hne [-> ->]. destruct (windowsChannels cfg); [congruence | simpl in Hn; lia].
Qed.

Lemma live_exists (l : list WorkerSt) :
  0 < List.length (filter live l) ->
  exists i w, l !! i = Some w /\ isListening w = true.
Proof.
  induction l as [|x l IH]; simpl; [lia |].
  rewrite filter_cons. destruct (decide (live x)) as [Hx | Hx].
  - intros _. exists 0, x. auto.
  - intros Hpos. destruct (IH Hpos) as (i & w & Hi & Hw).
    exists (S i), w. auto.
Qed.

Lemma drain (n : nat) (src : Source) : forall m s k,
  invariant n s -> watcher src s = Sending k -> listening s = m ->
  exists acts s',
    exec n acts s = Some s' /\ listening s' = 0 /\
    List.length acts = m /\
    Forall (fun a => exists i, a = Deliver src i) acts.
Proof.
  induction m as [|m IH]; intros s k Hinv Hw Hm.
  - exists [], s. simpl. auto.
  - destruct (live_exists (workers s)) as (i & w & Hi & Hl);
      [unfold listening in Hm; lia |].
    destruct Hinv as (Hlen & Hwf & Hsend).
    pose proof (Hsend src k Hw) as Hk.
    destruct k as [|k]; [lia |].
    set (s1 := setWorker i (receive w) (setWatcher src (Sending k) s)).
    assert (Hact : act n (Deliver src i) s = Some s1)
      by (simpl; rewrite Hw, Hi, Hl; reflexivity).
    assert (Hinv1 : invariant n s1)
      by (eapply act_invariant; [| exact Hact]; repeat split; assumption).
    assert (Hw1 : watcher src s1 = Sending k)
      by (unfold s1; rewrite watcher_setWorker, watcher_set_eq; reflexivity).
    assert (Hm1 : listening s1 = m).
    { pose proof (live_insert (workers s) i w (receive w) Hi Hl eq_refl) as Hdec.
      unfold listening, s1 in *. cbn [setWorker workers].
      rewrite workers_setWatcher. lia. }
    destruct (IH s1 k Hinv1 Hw1 Hm1) as (acts & s' & Hex & Hq & Hlen' & Hall).
    exists (Deliver src i :: acts), s'. cbn [exec]. rewrite Hact.
    split; [exact Hex |]. split; [exact Hq |]. split; [simpl; lia |].
    constructor; [eauto | exact Hall].
Qed.

(** X13.  One trigger is enough to stop everything: from any reachable
    state in which a broadcaster has fired, that broadcaster alone can
    stop every worker that is still listening, with one send per such
    worker. *)
Theorem one_trigger_stops_all (cfg : Config) (s : State) (src : Source) (k : nat) :
  reachable cfg s -> watcher src s = Sending k ->
  exists acts s',
    exec (List.length (windowsChannels cfg)) acts s = Some s' /\
    listening s' = 0 /\
    List.length acts = listening s /\
    Forall (fun a => exists i, a = Deliver src i) acts.
Proof.
  intros Hr Hw.
  apply (drain _ src (listening s) s k); auto.
  apply reachable_invariant, Hr.
Qed.

Lemma deadline_reachable :
  reachable Sample.twoChannels
    {| timerW := Sending 2; interruptW := Waiting;
       workers := [ {| phase := Listening; tokens := 0 |};
                    {| phase := Listening; tokens := 0 |} ] |}.
Proof.
  unfold reachable. eapply rtc_l; [exists Deadline; reflexivity | apply rtc_refl].
Defined.

Lemma both_fired_reachable :
  reachable Sample.twoChannels
    {| timerW := Sending 1; interruptW := Sending 1;
       workers := [ {| phase := Done; tokens := 1 |};
                    {| phase := Done; tokens := 1 |} ] |}.
Proof.
  unfold reachable.
  eapply rtc_l; [exists Deadline; reflexivity |].
  eapply rtc_l; [exists Interrupt; reflexivity |].
  eapply rtc_l; [exists (Deliver Timer 0); reflexivity |].
  eapply rtc_l; [exists (Deliver Signal 1); reflexivity |].
  apply rtc_refl.
Defined.

Lemma tokens_conserved_witness :
  delivered {| timerW := Sending 1; interruptW := Sending 1;
               workers := [ {| phase := Done; tokens := 1 |};
                            {| phase := Done; tokens := 1 |} ] |} = 2.
Proof.
  destruct (tokens_conserved Sample.twoChannels _ both_fired_reachable) as [Hsum _].
  rewrite Hsum. reflexivity.
Defined.

Lemma second_broadcast_never_completes_witness :
  List.length (windowsChannels Sample.twoChannels) <= 1 + 1.
Proof.
  destruct (second_broadcast_never_completes Sample.twoChannels _ 1 1
              both_fired_reachable eq_refl eq_refl) as [Hleft _].
  exact Hleft.
Defined.

Lemma one_trigger_stops_all_witness :
  exists acts s',
    exec 2 acts {| timerW := Sending 2; interruptW := Waiting;
                   workers := [ {| phase := Listening; tokens := 0 |};
                                {| phase := Listening; tokens := 0 |} ] |}
      = Some s' /\
    listening s' = 0 /\ List.length acts = 2.
Proof.
  destruct (one_trigger_stops_all Sample.twoChannels _ Timer 2
              deadline_reachable eq_refl) as (acts & s' & Hex & Hq & Hlen & _).
  exists acts, s'. auto.
Defined.

End TokenFacts.

(** ** Bounds on the racy counter (lines 203, 245-251) *)

Module CounterFacts.
Import Race GoInt GoIntFacts Further.

Lemma todoSum_insert (l : list Thread) : forall i th th',
  l !! i = Some th ->
  (todoSum (<[i := th']> l) + todo th = todoSum l + todo th')%nat.
Proof.
  induction l as [|x l IH]; intros [|i] th th' Hi; simpl in Hi; try discriminate.
  - injection Hi as ->. simpl. lia.
  - simpl. specialize (IH i th th' Hi). lia.
Qed.

Lemma todoSum_replicate (n k : nat) : todoSum (replicate n (fresh k)) = (n * k)%nat.
Proof. induction n as [|n IH]; simpl; [reflexivity | rewrite IH; reflexivity]. Qed.

Lemma finished_todoSum (ths : list Thread) :
  forallb (fun th => (todo th =? 0)%nat && bool_decide (reg th = None)) ths = true ->
  todoSum ths = 0%nat.
Proof.
  induction ths as [|th ths IH]; simpl; [reflexivity |].
  intros H. apply andb_true_iff in H as [Hth Hrest].
  apply andb_true_iff in Hth as [Hz _]. apply Nat.eqb_eq in Hz.
  rewrite Hz, (IH Hrest). reflexivity.
Qed.

Lemma incr_small (v total : Z) :
  0 <= v -> v + 1 <= total -> total <= maxInt -> incr v = v + 1.
Proof.
  intros H0 H1 Hmax. unfold incr. apply wrap_id.
  unfold inRange, minInt, maxInt, intSize in *. lia.
Qed.

(** The two shapes of a memory access. *)
Lemma stepThread_cases (i : nat) (s s' : Memory) :
  stepThread i s = Some s' ->
  (exists t,
      threads s !! i = Some {| todo := S t; reg := None |} /\
      s' = {| eventCnt := eventCnt s;
              threads := <[i := {| todo := S t; reg := Some (eventCnt s) |}]> (threads s) |}) \/
  (exists t v,
      threads s !! i = Some {| todo := S t; reg := Some v |} /\
      s' = {| eventCnt := incr v;
              threads := <[i := {| todo := t; reg := None |}]> (threads s) |}).
Proof.
  unfold stepThread. destruct (threads s !! i) as [[[|t] [v|]]|] eqn:Hi;
    try discriminate; intros [= <-]; [right | left]; eauto.
Qed.

Lemma start_bounded (n k : nat) : bounded (Z.of_nat (n * k)) (start n k).
Proof.
  unfold bounded, start. cbn [threads eventCnt]. rewrite todoSum_replicate.
  split; [lia |]. split; [lia |]. split; [reflexivity |].
  apply Forall_replicate. intros v. discriminate.
Qed.

Lemma stepThread_bounded (total : Z) (i : nat) (s s' : Memory) :
  total <= maxInt -> bounded total s -> stepThread i s = Some s' -> bounded total s'.
Proof.
  intros Hmax (H0 & Hle & Hzero & Hregs) Hstep. unfold regsAll in Hregs.
  destruct (stepThread_cases i s s' Hstep) as [(t & Hi & ->) | (t & v & Hi & ->)].
  - pose proof (todoSum_insert (threads s) i _
                  {| todo := S t; reg := Some (eventCnt s) |} Hi) as Hsum.
    simpl todo in Hsum.
    assert (Hsame : todoSum (<[i := {| todo := S t; reg := Some (eventCnt s) |}]>
                               (threads s)) = todoSum (threads s)) by lia.
    unfold bounded. cbn [threads eventCnt]. rewrite Hsame.
    split; [exact H0 |]. split; [exact Hle |]. split; [exact Hzero |].
    apply Forall_insert; [exact Hregs |].
    simpl. intros v [= <-]. lia.
  - pose proof (todoSum_insert (threads s) i _ {| todo := t; reg := None |} Hi) as Hsum.
    simpl todo in Hsum.
    rewrite Forall_forall in Hregs.
    destruct (Hregs _ (list_elem_of_lookup_2 _ _ _ Hi) v eq_refl) as [Hv0 Hv].
    assert (Hincr : incr v = v + 1) by (apply (incr_small v total); lia).
    unfold bounded. cbn [threads eventCnt]. rewrite Hincr.
    split; [lia |]. split; [lia |]. split; [lia |].
    apply Forall_insert.
    + apply Forall_forall. intros th Hth v' Hv'.
      destruct (Hregs th Hth v' Hv'). lia.
    + simpl. discriminate.
Qed.

Lemma run_bounded (total : Z) (sched : list nat) : forall s s',
  total <= maxInt -> bounded total s -> run sched s = Some s' -> bounded total s'.
Proof.
  induction sched as [|i sched IH]; intros s s' Hmax Hb Hrun; simpl in Hrun.
  - injection Hrun as <-. exact Hb.
  - destruct (stepThread i s) as [s1|] eqn:Hstep; [| discriminate].
    eapply IH; [exact Hmax | | exact Hrun].
    eapply stepThread_bounded; eauto.
Qed.

(** X14.  The racy counter never reports too much: under every schedule,
    [eventCnt] is at least 0 and at most the number of events whose
    increment has completed; so when all workers have finished it is at
    most the number of events, and at least 1 if there was an event.  (The
    number of events is taken to fit an [int].) *)
Theorem eventCnt_never_overcounts (n k : nat) (sched : list nat) (s : Memory) :
  Z.of_nat (n * k) <= maxInt ->
  run sched (start n k) = Some s ->
  0 <= eventCnt s /\
  eventCnt s + Z.of_nat (todoSum (threads s)) <= Z.of_nat (n * k) /\
  (finished s = true ->
   eventCnt s <= Z.of_nat (n * k) /\ ((0 < n * k)%nat -> 1 <= eventCnt s)).
Proof.
  intros Hmax Hrun.
  destruct (run_bounded _ sched _ s Hmax (start_bounded n k) Hrun)
    as (H0 & Hle & Hzero & _).
  split; [exact H0 |]. split; [exact Hle |].
  intros Hfin. unfold finished in Hfin.
  rewrite (finished_todoSum _ Hfin) in *. split; [lia |].
  intros Hpos. destruct (decide (eventCnt s = 0)) as [Hz | Hnz]; [| lia].
  specialize (Hzero Hz). lia.
Qed.

Lemma start_alone (k : nat) : alone (Z.of_nat k) (start 1 k).
Proof.
  exists (fresh k). unfold start. simpl. repeat split; try lia. discriminate.
Qed.

Lemma stepThread_alone (k : Z) (i : nat) (s s' : Memory) :
  k <= maxInt -> alone k s -> stepThread i s = Some s' -> alone k s'.
Proof.
  intros Hmax (th & Hths & Hsum & H0 & Hreg) Hstep.
  destruct (stepThread_cases i s s' Hstep) as [(t & Hi & ->) | (t & v & Hi & ->)];
    rewrite Hths in Hi; destruct i as [|i]; simpl in Hi; try discriminate;
    injection Hi as ->; rewrite Hths; simpl in *.
  - eexists. split; [reflexivity |]. simpl. repeat split; try lia.
    intros v [= <-]. reflexivity.
  - specialize (Hreg v eq_refl). subst v.
    assert (Hincr : incr (eventCnt s) = eventCnt s + 1)
      by (apply (incr_small _ k); lia).
    eexists. split; [reflexivity |]. simpl. rewrite Hincr.
    repeat split; try lia. discriminate.
Qed.

Lemma run_alone (k : Z) (sched : list nat) : forall s s',
  k <= maxInt -> alone k s -> run sched s = Some s' -> alone k s'.
Proof.
  induction sched as [|i sched IH]; intros s s' Hmax Ha Hrun; simpl in Hrun.
  - injection Hrun as <-. exact Ha.
  - destruct (stepThread i s) as [s1|] eqn:Hstep; [| discriminate].
    eapply IH; [exact Hmax | | exact Hrun].
    eapply stepThread_alone; eauto.
Qed.

(** X15.  With a single worker the count is exact: every schedule that
    lets the one worker finish its [k] events leaves [k] in [eventCnt]. *)
Theorem single_worker_counts_exactly (k : nat) (sched : list nat) (s : Memory) :
  Z.of_nat k <= maxInt ->
  run sched (start 1 k) = Some s -> finished s = true ->
  eventCnt s = Z.of_nat k.
Proof.
  intros Hmax Hrun Hfin.
  destruct (run_alone _ sched _ s Hmax (start_alone k) Hrun)
    as (th & Hths & Hsum & _ & _).
  unfold finished in Hfin. rewrite Hths in Hfin. simpl in Hfin.
  apply andb_true_iff in Hfin as [Hfin _].
  apply andb_true_iff in Hfin as [Hz _]. apply Nat.eqb_eq in Hz.
  rewrite Hz in Hsum. lia.
Qed.

Lemma eventCnt_never_overcounts_witness :
  exists s,
    run [0; 1; 0; 1]%nat (start 2 1) = Some s /\
    1 <= eventCnt s <= 2.
Proof.
  eexists. split; [reflexivity |].
  destruct (eventCnt_never_overcounts 2 1 [0; 1; 0; 1]%nat _
              ltac:(vm_compute; discriminate) eq_refl) as (_ & _ & Hfin).
  destruct (Hfin eq_refl) as [Hup Hlow].
  split; [apply Hlow; lia | exact Hup].
Defined.

Lemma single_worker_counts_exactly_witness :
  exists s, run [0; 0; 0; 0]%nat (start 1 2) = Some s /\ eventCnt s = 2.
Proof.
  eexists. split; [reflexivity |].
  apply (single_worker_counts_exactly 2 [0; 0; 0; 0]%nat);
    [vm_compute; discriminate | reflexivity | reflexivity].
Defined.

End CounterFacts.

(** ** The way into monitoring (lines 120-254) *)

Module MonitorFacts.
Import Proc ProcFacts Spec Further StartupFacts ExitFacts.

Section Monitor.
Context {Value E : Type}.
Context `{!GeneEngine E Value, !World}.

(** When rule loading returns, the rule path is a file or a directory and
    the effects are load effects. *)
Lemma loadRules_Ret (e e' : E) (p realPath : string) :
  outcome_of (loadRules e p realPath) = Ret e' ->
  (IsFile realPath = true \/ IsDir realPath = true) /\
  Forall (fun ev => isLoadEffect ev = true) (trace_of (loadRules e p realPath)).
Proof.
  unfold loadRules. destruct (IsFile realPath).
  - intros _. split; [auto |]. rewrite loadFile_eq. cbn [trace_of fst].
    destruct (Load e realPath).2; repeat constructor.
  - destruct (IsDir realPath); [| discriminate].
    intros _. split; [auto |]. unfold loadDir.
    destruct (loaded_items (Walk realPath) e) as (e1 & _ & _ & Hload & _).
    exact Hload.
Qed.

(** X17.  Monitoring starts only on one path through [main]: the run is
    not [-v], a rule path is there (given or downloaded), the filters do
    not conflict, the link resolves, and the resolved path is a file or a
    directory.  The effects then come in this order: the optional logger
    set-up and download, the engine construction, the filters, the link
    resolution, the rule loading, the rule count with its "Loaded" line,
    and only then the goroutines: the timer (when [timeout > 0]), the
    interrupt listener and one worker per requested channel, in the order
    of the command line. *)
Theorem monitoring_starts_after_loading (cfg : Config) (e : E) :
  outcome_of (main cfg) = Ret e ->
  exists p realPath loads,
    versionFlag cfg = false /\
    outcome_of (updateDatabase (Value := Value) cfg) = Ret p /\ p <> "" /\
    (tagsVar cfg = [] \/ namesVar cfg = []) /\
    ResolveLink p = (realPath, None) /\
    (IsFile realPath = true \/ IsDir realPath = true) /\
    Forall (fun ev => isLoadEffect ev = true) loads /\
    trace_of (main cfg) =
      (if debug cfg then [InitLogger] else [])
      ++ trace_of (updateDatabase (Value := Value) cfg)
      ++ ([CallNewEngine (trace cfg);
           CallSetFilters (namesVar cfg) (tagsVar cfg);
           CallResolveLink p]
          ++ loads
          ++ [CallCount; LogInfo ("Loaded " +:+ pretty (Count e) +:+ " rules")])
      ++ (if 0 <? timeout cfg then [GoTimer] else [])
      ++ GoInterrupt :: (GoWorker <$> windowsChannels cfg).
Proof.
  intros Hout.
  destruct (versionFlag cfg) eqn:Hv;
    [rewrite (main_version cfg Hv) in Hout; discriminate |].
  destruct (outcome_of (updateDatabase (Value := Value) cfg)) as [p|c0] eqn:Hu.
  2: { pose proof (startup_update_Exit cfg c0 Hv Hu) as Hs.
       rewrite (main_Exit cfg c0) in Hout by (rewrite Hs; reflexivity).
       discriminate. }
  pose proof (startup_update_Ret cfg p Hv Hu) as Hs.
  assert (Hconf : outcome_of (configure cfg p) = Ret e).
  { destruct (outcome_of (configure cfg p)) as [e1|c1] eqn:Hc.
    - rewrite (main_Ret cfg e1) in Hout by (rewrite Hs; reflexivity).
      simpl in Hout. congruence.
    - rewrite (main_Exit cfg c1) in Hout by (rewrite Hs; reflexivity).
      discriminate. }
  destruct (decide (p = "")) as [-> | Hp];
    [rewrite configure_no_path in Hconf; discriminate |].
  assert (Hf : tagsVar cfg = [] \/ namesVar cfg = []).
  { destruct (tagsVar cfg) as [|t ts] eqn:Ht; [auto |].
    destruct (namesVar cfg) as [|n ns] eqn:Hn; [auto |].
    rewrite (configure_conflict cfg p Hp) in Hconf
      by (rewrite ?Ht, ?Hn; discriminate).
    discriminate. }
  destruct (ResolveLink p) as [realPath [err|]] eqn:Hr;
    [rewrite (configure_resolve_error cfg p realPath err Hp Hf Hr) in Hconf;
     discriminate |].
  pose proof (configure_load cfg p realPath Hp Hf Hr) as Hc. cbv zeta in Hc.
  set (e0 := SetFilters (NewEngine (trace cfg)) (namesVar cfg) (tagsVar cfg)) in *.
  rewrite Hc in Hconf. cbn [outcome_of snd] in Hconf.
  destruct (loadRules_Ret e0 e p realPath Hconf) as [Hkind Hloads].
  exists p, realPath, (trace_of (loadRules e0 p realPath)).
  repeat (split; [assumption || reflexivity |]).
  rewrite (main_Ret cfg e) by (rewrite Hs, Hc; exact Hconf).
  rewrite Hs, Hc. cbn [trace_of fst]. rewrite Hconf.
  rewrite <- !app_assoc. reflexivity.
Qed.

End Monitor.

Lemma monitoring_starts_after_loading_witness :
  exists loads,
    trace_of (@main _ _ Sample.plainEngine Sample.rulesWorld (Sample.config "rules"))
    = [CallNewEngine false; CallSetFilters [] []; CallResolveLink "rules"]
      ++ loads
      ++ [CallCount; LogInfo "Loaded 2 rules"; GoInterrupt; GoWorker "sysmon"].
Proof.
  destruct (@monitoring_starts_after_loading _ _ Sample.plainEngine Sample.rulesWorld
              (Sample.config "rules") ["rules\b.gene"; "rules\a.gen"] eq_refl)
    as (p & realPath & loads & _ & Hp & _ & _ & Hr & _ & _ & Htrace).
  injection Hp as <-. injection Hr as <-.
  exists [LogDebug ".gen"; CallLoad "rules\a.gen" None;
          LogDebug ".gene"; CallLoad "rules\b.gene" None;
          LogDebug ".txt"].
  reflexivity.
Defined.

End MonitorFacts.

(** ** The loop body around the Go call (lines 239-252) *)

Module GoCallFacts.
Import Proc ProcFacts GoInt GoIntFacts Spec Further.

Section GoCall.
Context {XMLEvent JSONEvent Value E : Type}.
Context `{!JSONCodec XMLEvent JSONEvent Value, !GeneRuntime E Value, !World}.

(** One iteration, effect by effect, for both ends of the call. *)
Lemma handleEventGo_eq (thresh : Z) (e : E) (cnt : Counters) (xe : XMLEvent) :
  let event := (XMLEventToGoEvtxMap xe).1 in
  handleEventGo thresh (e, cnt) xe =
    match MatchGo e event with
    | Panics => (conversionLog xe ++ [CallMatch event], Exit exitPanic)
    | Returns e' after n crit =>
        (conversionLog xe
         ++ CallMatch event
         :: (if alerting thresh (n, crit) then [Println (evtx_ToJSON after)] else []),
         Ret (e', {| eventCnt := incr (eventCnt cnt);
                     alertsCnt := if alerting thresh (n, crit)
                                  then incr (alertsCnt cnt) else alertsCnt cnt |}))
    end.
Proof.
  unfold handleEventGo, conversionLog. cbv zeta.
  destruct (XMLEventToGoEvtxMap xe) as [event err]. cbn [fst snd].
  destruct (MatchGo e event) as [|e' after n crit].
  - destruct err; reflexivity.
  - rewrite WorkerFacts.alerting_code.
    destruct err; destruct (0 <? List.length n)%nat; destruct (thresh <=? crit);
      reflexivity.
Qed.

(** When the call returns and has written neither to the engine nor to
    the event, the iteration is the one [handleEvent] describes. *)
Lemma handleEventGo_contract `{!GeneEngine E Value}
    (thresh : Z) (e : E) (cnt : Counters) (xe : XMLEvent) :
  let event := (XMLEventToGoEvtxMap xe).1 in
  MatchGo e event = Returns e event (Match e event).1 (Match e event).2 ->
  handleEventGo thresh (e, cnt) xe
  = (trace_of (handleEvent e thresh cnt xe),
     match outcome_of (handleEvent e thresh cnt xe) with
     | Ret cnt' => Ret (e, cnt')
     | Exit c => Exit c
     end).
Proof.
  cbv zeta. intros Hcall.
  pose proof (handleEventGo_eq thresh e cnt xe) as Hgo. cbv zeta in Hgo.
  pose proof (WorkerFacts.handleEvent_eq e thresh cnt xe) as Hev. cbv zeta in Hev.
  rewrite Hgo, Hev, Hcall. unfold conversionLog.
  destruct (Match e (XMLEventToGoEvtxMap xe).1) as [n crit]. reflexivity.
Qed.

Lemma loop_cons_Ret (thresh : Z) (st st1 : E * Counters) (xe : XMLEvent) events :
  outcome_of (handleEventGo thresh st xe) = Ret st1 ->
  trace_of (foldM (handleEventGo thresh) st (xe :: events))
    = trace_of (handleEventGo thresh st xe)
      ++ trace_of (foldM (handleEventGo thresh) st1 events) /\
  outcome_of (foldM (handleEventGo thresh) st (xe :: events))
    = outcome_of (foldM (handleEventGo thresh) st1 events).
Proof.
  intros Ho. cbn [foldM].
  apply (bind_Ret _ (fun s' => foldM (handleEventGo thresh) s' events) _ Ho).
Qed.

(** C2, as the code has it.  When the conversion of a raw event fails,
    the error is logged (and the raw event at debug level) and the event is
    not dropped: the pointer that came back with the error, which is not nil
    and points to the empty map after a [json.Marshal] failure and to the
    map as [json.Unmarshal] left it otherwise, is handed to [e.Match] like
    that of any other event.  If the call returns, a line is printed and
    [alertsCnt] incremented exactly when the result has a rule name and a
    criticality at or above the threshold, [eventCnt] is incremented, and
    the loop goes on with the next event.  If the call panics, nothing
    recovers it: the process ends there, the event uncounted. *)
Theorem failed_conversion_reaches_match (thresh : Z) (e : E) (cnt : Counters)
    (xe : XMLEvent) (err : error) :
  (XMLEventToGoEvtxMap xe).2 = Some err ->
  let event := (XMLEventToGoEvtxMap xe).1 in
  let logged := [LogError ("Failed to convert event: " +:+ err);
                 LogDebug ("Error data: " +:+ fmt_v xe);
                 CallMatch event] in
  (event <> None /\
   (forall err', json_Marshal (ToJSONEvent xe) = inr err' ->
                 event = Some (Some ∅)) /\
   (forall bytes ge,
       json_Marshal (ToJSONEvent xe) = inl bytes ->
       json_Unmarshal bytes make_GoEvtxMap = (ge, Some err) ->
       event = Some ge)) /\
  (exists rest, trace_of (handleEventGo thresh (e, cnt) xe) = logged ++ rest) /\
  (forall e' after n crit,
      MatchGo e event = Returns e' after n crit ->
      let hit := alerting thresh (n, crit) in
      let cnt' := {| eventCnt := incr (eventCnt cnt);
                     alertsCnt := if hit then incr (alertsCnt cnt)
                                  else alertsCnt cnt |} in
      handleEventGo thresh (e, cnt) xe
        = (logged ++ (if hit then [Println (evtx_ToJSON after)] else []),
           Ret (e', cnt')) /\
      forall events,
        trace_of (foldM (handleEventGo thresh) (e, cnt) (xe :: events))
          = trace_of (handleEventGo thresh (e, cnt) xe)
            ++ trace_of (foldM (handleEventGo thresh) (e', cnt') events) /\
        outcome_of (foldM (handleEventGo thresh) (e, cnt) (xe :: events))
          = outcome_of (foldM (handleEventGo thresh) (e', cnt') events)) /\
  (MatchGo e event = Panics ->
   handleEventGo thresh (e, cnt) xe = (logged, Exit exitPanic) /\
   forall events,
     foldM (handleEventGo thresh) (e, cnt) (xe :: events) = (logged, Exit exitPanic)).
Proof.
  intros Herr. cbv zeta.
  pose proof (handleEventGo_eq thresh e cnt xe) as Heq. cbv zeta in Heq.
  unfold conversionLog in Heq. rewrite Herr in Heq.
  split; [| split; [| split]].
  - split; [| split].
    + destruct (ConvertFacts.convert_pointer xe) as [ge ->]. discriminate.
    + intros err' Hm. rewrite (ConvertFacts.convert_marshal_error xe err' Hm).
      reflexivity.
    + intros bytes ge Hm Hu.
      rewrite (ConvertFacts.convert_unmarshal xe bytes ge (Some err) Hm Hu).
      reflexivity.
  - rewrite Heq. destruct (MatchGo e (XMLEventToGoEvtxMap xe).1); eexists;
      cbn [trace_of fst]; reflexivity.
  - intros e' after n crit Hcall. rewrite Hcall in Heq.
    split; [exact Heq |]. intros events.
    apply loop_cons_Ret. rewrite Heq. reflexivity.
  - intros Hcall. rewrite Hcall in Heq. split; [exact Heq |].
    intros events. cbn [foldM].
    destruct (bind_Exit (handleEventGo thresh (e, cnt) xe)
                (fun s' => foldM (handleEventGo thresh) s' events) exitPanic
                ltac:(rewrite Heq; reflexivity)) as [Ht Ho].
    rewrite (surjective _ (Proc.bind _ _)), Ht, Ho, Heq. reflexivity.
Qed.

(** Whatever the engine does, an event whose conversion failed is not
    dropped: [e.Match] is called on it. *)
Lemma never_dropped (thresh : Z) (e : E) (cnt : Counters) (xe : XMLEvent) (err : error) :
  (XMLEventToGoEvtxMap xe).2 = Some err ->
  ~ dropsFailedEvent thresh e cnt xe.
Proof.
  intros Herr Hdrop. destruct (Hdrop err Herr) as (_ & Hnomatch & _).
  pose proof (handleEventGo_eq thresh e cnt xe) as Heq. cbv zeta in Heq.
  apply (Hnomatch (XMLEventToGoEvtxMap xe).1). rewrite Heq.
  destruct (MatchGo e (XMLEventToGoEvtxMap xe).1); cbn [trace_of fst];
    apply in_or_app; right; left; reflexivity.
Qed.

(** The counters of a worker that returns, against what it printed. *)
Lemma loopGo_counts (thresh : Z) (events : list XMLEvent) :
  forall e cnt a b e' cnt',
    eventCnt cnt = wrap a -> alertsCnt cnt = wrap b ->
    outcome_of (foldM (handleEventGo thresh) (e, cnt) events) = Ret (e', cnt') ->
    let tr := trace_of (foldM (handleEventGo thresh) (e, cnt) events) in
    eventCnt cnt' = wrap (a + Z.of_nat (List.length events)) /\
    alertsCnt cnt' = wrap (b + Z.of_nat (List.length (printed tr))) /\
    (List.length (printed tr) <= List.length events)%nat /\
    List.length (filter (fun ev => isCallMatch ev = true) tr) = List.length events.
Proof.
  induction events as [|xe events IH]; intros e cnt a b e' cnt' Ha Hb Hout.
  - simpl in Hout. injection Hout as <- <-. cbv zeta. simpl.
    rewrite !Z.add_0_r. auto.
  - pose proof (handleEventGo_eq thresh e cnt xe) as Heq. cbv zeta in Heq.
    destruct (MatchGo e (XMLEventToGoEvtxMap xe).1) as [|e1 after n crit] eqn:Hcall.
    { exfalso. cbn [foldM] in Hout.
      destruct (bind_Exit (handleEventGo thresh (e, cnt) xe)
                  (fun s' => foldM (handleEventGo thresh) s' events) exitPanic
                  ltac:(rewrite Heq; reflexivity)) as [_ Ho].
      rewrite Ho in Hout. discriminate. }
    set (hit := alerting thresh (n, crit)) in *.
    set (cnt1 := {| eventCnt := incr (eventCnt cnt);
                    alertsCnt := if hit then incr (alertsCnt cnt)
                                 else alertsCnt cnt |}) in *.
    destruct (loop_cons_Ret thresh (e, cnt) (e1, cnt1) xe events
                ltac:(rewrite Heq; reflexivity)) as [Ht Ho].
    rewrite Ho in Hout. cbv zeta. rewrite Ht, Heq. cbn [trace_of fst].
    assert (Hpr : printed (conversionLog xe
                    ++ CallMatch (XMLEventToGoEvtxMap xe).1
                    :: (if hit then [Println (evtx_ToJSON after)] else []))
                  = if hit then [evtx_ToJSON after] else [])
      by (unfold conversionLog;
          destruct (XMLEventToGoEvtxMap xe).2; destruct hit; reflexivity).
    assert (Hcm : List.length (filter (fun ev => isCallMatch ev = true)
                    (conversionLog xe
                     ++ CallMatch (XMLEventToGoEvtxMap xe).1
                     :: (if hit then [Println (evtx_ToJSON after)] else [])))
                  = 1%nat)
      by (unfold conversionLog;
          destruct (XMLEventToGoEvtxMap xe).2; destruct hit; reflexivity).
    rewrite OutputFacts.printed_app, Hpr, filter_app, !length_app, Hcm.
    destruct hit eqn:Hhit.
    + destruct (IH e1 cnt1 (a + 1) (b + 1) e' cnt') as (Hev & Hal & Hle & Hm);
        [subst cnt1; simpl; rewrite Ha; apply incr_wrap
        |subst cnt1; simpl; rewrite Hb; apply incr_wrap
        |exact Hout |].
      cbv zeta in Hev, Hal, Hle, Hm. rewrite Hev, Hal, Hm.
      simpl List.length.
      split; [f_equal; lia |]. split; [f_equal; lia |]. split; lia.
    + destruct (IH e1 cnt1 (a + 1) b e' cnt') as (Hev & Hal & Hle & Hm);
        [subst cnt1; simpl; rewrite Ha; apply incr_wrap
        |subst cnt1; simpl; exact Hb
        |exact Hout |].
      cbv zeta in Hev, Hal, Hle, Hm. rewrite Hev, Hal, Hm.
      simpl List.length.
      split; [f_equal; lia |]. split; [f_equal; lia |]. split; lia.
Qed.

(** X8.  Whatever the engine returns or writes into the events, a worker
    that comes to the end of its stream has counted what it did: counted
    from zero, for a stream shorter than the largest [int], [eventCnt] is
    the number of events and of [e.Match] calls, and [alertsCnt] is the
    number of lines the worker printed. *)
Theorem alerts_reported_are_printed (thresh : Z) (e : E) (winChan : string)
    (events : list XMLEvent) (e' : E) (cnt' : Counters) :
  let r := workerGo e thresh winChan events {| eventCnt := 0; alertsCnt := 0 |} in
  outcome_of r = Ret (e', cnt') ->
  Z.of_nat (List.length events) <= maxInt ->
  eventCnt cnt' = Z.of_nat (List.length events) /\
  alertsCnt cnt' = Z.of_nat (List.length (printed (trace_of r))) /\
  List.length (filter (fun ev => isCallMatch ev = true) (trace_of r))
    = List.length events.
Proof.
  cbv zeta. unfold workerGo.
  rewrite (surjective _ (foldM (handleEventGo thresh)
                           (e, {| eventCnt := 0; alertsCnt := 0 |}) events)).
  cbn [Proc.bind Proc.emit trace_of outcome_of fst snd app].
  intros Hout Hmax.
  destruct (loopGo_counts thresh events e {| eventCnt := 0; alertsCnt := 0 |}
              0 0 e' cnt' eq_refl eq_refl Hout) as (Hev & Hal & Hle & Hm).
  cbv zeta in Hev, Hal, Hle, Hm. rewrite !Z.add_0_l in *.
  change (printed (?a :: ?b :: ?tr)) with (printed tr).
  change (filter ?P (LogInfo ?x :: Subscribe ?y :: ?tr)) with (filter P tr).
  rewrite Hev, Hal, Hm.
  split; [| split; [| reflexivity]];
    apply wrap_id; unfold inRange, minInt, maxInt, intSize in *; lia.
Qed.

End GoCall.

(** The event [""] fails in [json.Marshal]; the engine call is made all the
    same, here on an engine that cannot take the map that is left. *)
Lemma failed_conversion_counterexample :
  ~ @dropsFailedEvent _ _ _ _ Sample.codec (strictRuntime Sample.mimikatzRule)
      5 [] {| eventCnt := 0; alertsCnt := 0 |} "".
Proof.
  apply (@never_dropped _ _ _ _ Sample.codec (strictRuntime Sample.mimikatzRule)
           5 [] _ "" "json: unsupported value").
  reflexivity.
Qed.

Lemma failed_conversion_reaches_match_witness :
  @handleEventGo _ _ _ _ Sample.codec (runtime Sample.catchAllRule)
      5 ([], {| eventCnt := 0; alertsCnt := 0 |}) ""
  = ([LogError "Failed to convert event: json: unsupported value";
      LogDebug "Error data: ";
      CallMatch (Some (Some ∅));
      Println "{}"],
     Ret ([], {| eventCnt := 1; alertsCnt := 1 |})) /\
  @handleEventGo _ _ _ _ Sample.codec (strictRuntime Sample.mimikatzRule)
      5 ([], {| eventCnt := 0; alertsCnt := 0 |}) ""
  = ([LogError "Failed to convert event: json: unsupported value";
      LogDebug "Error data: ";
      CallMatch (Some (Some ∅))],
     Exit 2).
Proof.
  split.
  - destruct (@failed_conversion_reaches_match _ _ _ _ Sample.codec
                (runtime Sample.catchAllRule) 5 []
                {| eventCnt := 0; alertsCnt := 0 |} "" "json: unsupported value"
                eq_refl) as (_ & _ & Hret & _).
    destruct (Hret [] (Some (Some {["GeneInfo" := "CatchAll"]})) ["CatchAll"] 10 eq_refl)
      as [Heq _].
    rewrite Heq. reflexivity.
  - destruct (@failed_conversion_reaches_match _ _ _ _ Sample.codec
                (strictRuntime Sample.mimikatzRule) 5 []
                {| eventCnt := 0; alertsCnt := 0 |} "" "json: unsupported value"
                eq_refl) as (_ & _ & _ & Hpanic).
    destruct (Hpanic eq_refl) as [Heq _]. rewrite Heq. reflexivity.
Defined.

Lemma alerts_reported_are_printed_witness :
  printed (trace_of (@workerGo _ _ _ _ Sample.codec (runtime Sample.mimikatzRule)
                       Sample.emptyWorld [] 5 "sysmon" Sample.stream
                       {| eventCnt := 0; alertsCnt := 0 |}))
  = ["mimikatz"; "mimikatz"; "mimikatz"] /\
  exists cnt',
    outcome_of (@workerGo _ _ _ _ Sample.codec (runtime Sample.mimikatzRule)
                  Sample.emptyWorld [] 5 "sysmon" Sample.stream
                  {| eventCnt := 0; alertsCnt := 0 |}) = Ret ([], cnt') /\
    eventCnt cnt' = 10 /\ alertsCnt cnt' = 3.
Proof.
  split; [reflexivity |]. eexists. split; [reflexivity |].
  destruct (@alerts_reported_are_printed _ _ _ _ Sample.codec
              (runtime Sample.mimikatzRule) Sample.emptyWorld 5 [] "sysmon"
              Sample.stream [] _ eq_refl ltac:(vm_compute; discriminate))
    as (Hev & Hal & _).
  split; [exact Hev | exact Hal].
Defined.

End GoCallFacts.

(** ** The rule count after a directory walk (lines 181-199) *)

Module LoadFacts.
Import Proc ProcFacts Spec Further StartupFacts.

Section Load.
Context {Value E : Type}.
Context `{!GeneEngine E Value, !World}.

Lemma after_file (dir : string) (e : E) (fi : string) :
  outcome_of (loadWalkFile dir e fi)
  = Ret (engineAfter e (if allowListed fi then [Join dir fi] else [])).
Proof. rewrite loadWalkFile_eq. destruct (allowListed fi); reflexivity. Qed.

Lemma after_item (dir : string) (files : list string) : forall e : E,
  outcome_of (foldM (loadWalkFile dir) e files)
  = Ret (engineAfter e (Join dir <$> filter (fun fi => allowListed fi = true) files)).
Proof.
  induction files as [|fi files IH]; intros e; [reflexivity |].
  cbn [foldM].
  destruct (bind_Ret _ (fun s' => foldM (loadWalkFile dir) s' files) _
              (after_file dir e fi)) as [_ ->].
  rewrite IH, filter_cons.
  destruct (decide (allowListed fi = true)) as [Ha | Ha].
  - rewrite Ha. reflexivity.
  - apply not_true_is_false in Ha. rewrite Ha. reflexivity.
Qed.

Lemma after_items (items : list WalkItem) : forall e : E,
  outcome_of (foldM loadWalkItem e items) = Ret (engineAfter e (ruleFiles items)).
Proof.
  induction items as [|wi items IH]; intros e; [reflexivity |].
  cbn [foldM].
  pose proof (after_item (Dirpath wi) (Files wi) e) as Ho.
  fold (loadWalkItem e wi) in Ho.
  destruct (bind_Ret _ (fun s' => foldM loadWalkItem s' items) _ Ho) as [_ ->].
  rewrite IH, ruleFiles_cons. unfold engineAfter. rewrite foldl_app. reflexivity.
Qed.

(** C6, as the code has it.  In the directory branch the calls to
    [e.Load] are exactly the files of the walk whose extension is [.gen] or
    [.gene], in walk order, and every file handed to [e.Load] is such a
    file.  The number reported as loaded is what [e.Count] answers on the
    engine these calls leave, starting from the new engine with its
    filters set: it counts the rules the engine holds, not the files that
    parsed. *)
Theorem rule_count_is_engine_count (e : E) (realPath : string) :
  let files := ruleFiles (Walk realPath) in
  (outcome_of (loadDir e realPath) = Ret (engineAfter e files) /\
   (loadCalls (trace_of (loadDir e realPath))).*1 = files /\
   (forall p r,
       In (CallLoad p r) (trace_of (loadDir e realPath)) ->
       exists wi fi,
         wi ∈ Walk realPath /\ fi ∈ Files wi /\ p = Join (Dirpath wi) fi /\
         GoFilepath.Ext fi ∈ ruleExts)) /\
  (forall cfg p,
      versionFlag cfg = false ->
      outcome_of (updateDatabase (Value := Value) cfg) = Ret p -> p <> "" ->
      tagsVar cfg = [] \/ namesVar cfg = [] ->
      ResolveLink p = (realPath, None) ->
      IsFile realPath = false -> IsDir realPath = true ->
      let e1 : E :=
        engineAfter (SetFilters (NewEngine (trace cfg)) (namesVar cfg) (tagsVar cfg))
                    files in
      outcome_of (startup cfg) = Ret e1 /\
      exists tr,
        trace_of (startup (E := E) cfg)
        = tr ++ [CallCount; LogInfo ("Loaded " +:+ pretty (Count e1) +:+ " rules")]).
Proof.
  cbv zeta. split.
  - unfold loadDir.
    destruct (loaded_items (Walk realPath) e) as (e' & _ & Hcalls & _).
    split; [apply after_items |]. split; [exact Hcalls |].
    intros p r Hin. apply elem_of_ruleFiles. rewrite <- Hcalls.
    apply list_elem_of_fmap. exists (p, r). split; [reflexivity |].
    unfold loadCalls. apply list_elem_of_omap.
    exists (CallLoad p r). split; [apply list_elem_of_In, Hin | reflexivity].
  - intros cfg p Hv Hp Hne Hfilt Hr Hf Hd.
    pose proof (startup_update_Ret cfg p Hv Hp) as Hs.
    pose proof (configure_load cfg p realPath Hne Hfilt Hr) as Hc. cbv zeta in Hc.
    set (e0 := SetFilters (NewEngine (trace cfg)) (namesVar cfg) (tagsVar cfg)) in *.
    assert (Hload : loadRules e0 p realPath = loadDir e0 realPath)
      by (unfold loadRules; rewrite Hf, Hd; reflexivity).
    rewrite Hload in Hc. unfold loadDir in Hc.
    rewrite (after_items (Walk realPath) e0) in Hc.
    rewrite Hc in Hs. cbn [outcome_of trace_of fst snd] in Hs.
    rewrite Hs. cbn [outcome_of trace_of fst snd].
    split; [reflexivity |].
    match goal with
    | |- exists tr, ?a ++ ?b ++ ?c ++ ?d ++ _ = _ => exists (a ++ b ++ c ++ d)
    end.
    rewrite <- !app_assoc. reflexivity.
Qed.

End Load.

(** One rule file with two rules: the file count is 1, the line says 2. *)
Lemma rule_count_counterexample :
  ~ @countsParsedFiles _ _ (bundleEngine bundleRules) bundleWorld
      (Sample.config "rules").
Proof.
  intros Hclaim. specialize (Hclaim _ eq_refl).
  vm_compute in Hclaim. discriminate.
Qed.

(** Scenario A, and the directory whose one rule file holds two rules. *)
Lemma rule_count_is_engine_count_witness :
  last (trace_of (@startup _ _ Sample.plainEngine Sample.rulesWorld
                    (Sample.config "rules")))
    = Some (LogInfo "Loaded 2 rules") /\
  (loadCalls (trace_of (@loadDir _ _ (bundleEngine bundleRules) bundleWorld [] "rules"))).*1
    = ["rules\lateral.gen"] /\
  last (trace_of (@startup _ _ (bundleEngine bundleRules) bundleWorld
                    (Sample.config "rules")))
    = Some (LogInfo "Loaded 2 rules").
Proof.
  destruct (@rule_count_is_engine_count _ _ Sample.plainEngine Sample.rulesWorld
              [] "rules") as [_ HA].
  destruct (HA (Sample.config "rules") "rules" eq_refl eq_refl
              ltac:(discriminate) (or_introl eq_refl) eq_refl eq_refl eq_refl)
    as (_ & trA & HtrA).
  destruct (@rule_count_is_engine_count _ _ (bundleEngine bundleRules) bundleWorld
              [] "rules") as [(_ & Hcalls & _) HB].
  destruct (HB (Sample.config "rules") "rules" eq_refl eq_refl
              ltac:(discriminate) (or_introl eq_refl) eq_refl eq_refl eq_refl)
    as (_ & trB & HtrB).
  split; [| split].
  - rewrite HtrA, last_app_cons. reflexivity.
  - rewrite Hcalls. reflexivity.
  - rewrite HtrB, last_app_cons. reflexivity.
Defined.

End LoadFacts.

(** ** The command line and the filter lists (lines 76-79, 102-118, 154-161) *)

Module FlagFacts.
Import Proc ProcFacts Spec Further StartupFacts ExitFacts.

Section CommandLines.
Context {Value E : Type}.
Context `{!GeneEngine E Value, !World}.

Lemma usage_eq (prog : string) :
  usage (Value := Value) (E := E) prog
  = ([PrintInfo; PrintUsage prog; PrintDefaults], Exit exitSuccess).
Proof. reflexivity. Qed.








(** X4.  The program leaves early in three ways only.  When [flag.Parse]
    calls [flag.Usage] (on [-h] and on a command line it refuses), the
    version text and the usage are printed and the exit code is 0.  With
    [-v] the version text is printed and the exit code is 0.  Every other
    early exit has code 1 and comes right after an error line.  In no case
    has a goroutine been started or a source been subscribed to when the
    process exits. *)
Theorem whids_exit_codes (cl : CommandLine) (c : Z) :
  outcome_of (whids (Value := Value) (E := E) cl) = Exit c ->
  Forall (fun ev => monitors ev = false) (trace_of (whids (Value := Value) (E := E) cl)) /\
  ((exists prog,
       cl = Refused prog /\ c = exitSuccess /\
       trace_of (whids (Value := Value) (E := E) cl)
       = [PrintInfo; PrintUsage prog; PrintDefaults]) \/
   (exists fl,
       cl = Accepted fl /\ flag_v fl = true /\ c = exitSuccess /\
       trace_of (whids (Value := Value) (E := E) cl) = [PrintInfo]) \/
   (exists fl,
       cl = Accepted fl /\ flag_v fl = false /\ c = exitFail /\
       exists msg, last (trace_of (whids (Value := Value) (E := E) cl)) = Some (LogError msg))).
Proof.
  destruct cl as [fl | prog]; cbn [whids].
  - intros Hout. destruct (main_early_exit (parsed fl) c Hout) as [Hq Hcase].
    split; [exact Hq |].
    destruct Hcase as [(Hv & Hc & Htr) | (Hv & Hc & Hlast)].
    + right. left. exists fl. auto.
    + right. right. exists fl. auto.
  - rewrite usage_eq. cbn [outcome_of trace_of fst snd]. intros [= <-].
    split; [repeat constructor |]. left. exists prog. auto.
Qed.

End CommandLines.

(** [whids -names T1003 -tags persistence]: neither flag exists. *)
Example scenario_B :
  @whids _ _ Sample.plainEngine Sample.rulesWorld (Refused "whids")
  = ([PrintInfo; PrintUsage "whids"; PrintDefaults], Exit 0).
Proof. reflexivity. Qed.

Example accepted_run :
  @whids _ _ Sample.plainEngine Sample.rulesWorld (Accepted plainFlags)
  = ([CallNewEngine false; CallSetFilters [] []; CallResolveLink "rules";
      LogDebug ".gen"; CallLoad "rules\a.gen" None;
      LogDebug ".gene"; CallLoad "rules\b.gene" None;
      LogDebug ".txt";
      CallCount; LogInfo "Loaded 2 rules";
      GoInterrupt; GoWorker "sysmon"],
     Ret ["rules\b.gene"; "rules\a.gen"]).
Proof. vm_compute. reflexivity. Qed.

Lemma whids_exit_codes_witness :
  trace_of (@whids _ _ Sample.plainEngine Sample.rulesWorld (Refused "whids"))
    = [PrintInfo; PrintUsage "whids"; PrintDefaults] /\
  exists msg,
    last (trace_of (@whids _ _ Sample.plainEngine Sample.emptyWorld
                      (Accepted plainFlags)))
    = Some (LogError msg).
Proof.
  split.
  - destruct (@whids_exit_codes _ _ Sample.plainEngine Sample.rulesWorld
                (Refused "whids") 0 eq_refl) as [_ Hcase].
    destruct Hcase as [(prog & Hcl & _ & Htr) | [(fl & Hcl & _) | (fl & Hcl & _)]];
      [| discriminate Hcl | discriminate Hcl].
    injection Hcl as <-. exact Htr.
  - destruct (@whids_exit_codes _ _ Sample.plainEngine Sample.emptyWorld
                (Accepted plainFlags) 1 eq_refl) as [_ Hcase].
    destruct Hcase as [(prog & Hcl & _) | [(fl & Hcl & Hv & _) | (fl & _ & _ & _ & Hlast)]];
      [discriminate Hcl | | exact Hlast].
    injection Hcl as <-. discriminate Hv.
Defined.

End FlagFacts.

(** ** The sends that are left over (lines 207-210, 218-221) *)

Module BroadcastFacts.
Import Shutdown ShutdownFacts Further TokenFacts.
Local Open Scope nat_scope.

(** With no worker listening, no send completes: a broadcaster in its
    loop stays where it is. *)
Lemma act_blocked (n : nat) (a : Action) (s s' : State) (src : Source) (k : nat) :
  listening s = 0 -> watcher src s = Sending k -> act n a s = Some s' ->
  watcher src s' = Sending k.
Proof.
  intros Hq Hw Hact.
  destruct (act_cases n a s s' Hact)
    as [(src' & Hw' & ->) | [(src' & k' & i & w & Hw' & Hi & Hl & ->) | (i & w & Hi & Hl & ->)]].
  - rewrite watcher_set. case_decide; [subst; congruence | exact Hw].
  - pose proof (live_pos (workers s) i w Hi Hl). unfold listening in Hq. lia.
  - pose proof (live_pos (workers s) i w Hi Hl). unfold listening in Hq. lia.
Qed.

Lemma rtc_blocked (n : nat) (s s' : State) (src : Source) (k : nat) :
  listening s = 0 -> watcher src s = Sending k -> rtc (step n) s s' ->
  watcher src s' = Sending k /\ listening s' = 0.
Proof.
  intros Hq Hw. revert s'. apply rtc_ind_r; [auto |].
  intros s1 s2 _ [a Hact] [IHw IHq]. split.
  - apply (act_blocked n a s1); assumption.
  - unfold listening. rewrite (act_quiet n a s1 s2 IHq Hact). exact IHq.
Qed.

(** C3, as the code has it.  In every state the system can reach: each
    worker has taken at most one stop token, and the tokens taken plus the
    workers still listening never exceed the number of workers; once a
    trigger has fired, each worker that is still listening can take a token
    from the broadcaster that fired and then is done with exactly one
    token.  The sends that are left over are not thrown away: when no
    worker listens any more, a broadcaster with sends to go stays in its
    loop for good, blocked on [signals <- true], and no worker changes; when
    both triggers have fired the two broadcasters are left with at least as
    many sends as there are workers.  No run is longer than the number of
    workers plus two moves. *)
Theorem surplus_sends_block (cfg : Config) (s : State) :
  reachable cfg s ->
  let n := List.length (windowsChannels cfg) in
  Forall (fun w => tokens w <= 1) (workers s) /\
  delivered s + listening s <= n /\
  (forall src k i w,
      watcher src s = Sending k ->
      workers s !! i = Some w -> isListening w = true ->
      exists s',
        act n (Deliver src i) s = Some s' /\
        workers s' !! i = Some {| phase := Done; tokens := 1 |}) /\
  (listening s = 0 ->
   forall s',
     rtc (step n) s s' ->
     workers s' = workers s /\
     forall src k, watcher src s = Sending k -> watcher src s' = Sending k) /\
  (forall kt ki,
      timerW s = Sending kt -> interruptW s = Sending ki -> n <= kt + ki) /\
  (forall acts s', exec n acts s = Some s' -> List.length acts <= n + 2).
Proof.
  intros Hr n. destruct (reachable_invariant cfg s Hr) as (Hlen & Hwf & Hsend).
  fold n in Hlen, Hsend.
  split; [| split; [| split; [| split; [| split]]]].
  - eapply Forall_impl; [exact Hwf |]. intros w [Hle _]. exact Hle.
  - rewrite <- Hlen. apply delivered_bound, Hwf.
  - intros src k i w Hw Hi Hl.
    pose proof (Hsend src k Hw) as Hk.
    pose proof (live_pos (workers s) i w Hi Hl) as Hpos.
    unfold listening in Hk. destruct k as [|k]; [lia |].
    eexists. split.
    + simpl. rewrite Hw, Hi, Hl. reflexivity.
    + cbn [setWorker workers]. rewrite list_lookup_insert_eq.
      * rewrite Forall_forall in Hwf.
        destruct (Hwf w) as [_ Hzero]; [eapply list_elem_of_lookup_2; eauto |].
        unfold receive. rewrite (Hzero Hl). reflexivity.
      * rewrite workers_setWatcher. eapply lookup_lt_Some; eauto.
  - intros Hq s' Hrun. split; [apply (rtc_quiet n); assumption |].
    intros src k Hw. apply (rtc_blocked n s s' src k Hq Hw Hrun).
  - intros kt ki Ht Hi.
    destruct (reachable_conserved cfg s Hr) as [Hle Hsum]. fold n in Hle, Hsum.
    pose proof (delivered_bound (workers s) Hwf) as Hb.
    pose proof (Hle Timer kt Ht) as Hkt. pose proof (Hle Signal ki Hi) as Hki.
    unfold delivered in Hsum. rewrite Ht, Hi in Hsum. simpl in Hsum.
    rewrite Hlen in Hb. lia.
  - intros acts s' Hex.
    pose proof (exec_measure n acts s s' Hex).
    pose proof (measure_bound n s Hlen). lia.
Qed.

(** Both triggers have fired and each broadcaster has stopped one of the
    two workers: each is left with one send that no one will receive. *)
Lemma surplus_counterexample : ~ surplusDiscarded Sample.twoChannels.
Proof.
  intros Hclaim.
  destruct (Hclaim _ Timer 1 both_fired_reachable eq_refl) as (s' & Hrun & Hend).
  destruct (rtc_blocked 2
              {| timerW := Sending 1; interruptW := Sending 1;
                 workers := [ {| phase := Done; tokens := 1 |};
                              {| phase := Done; tokens := 1 |} ] |}
              s' Timer 1 eq_refl eq_refl Hrun) as [Hstay _].
  rewrite Hstay in Hend. discriminate.
Qed.

Lemma surplus_sends_block_witness :
  (exists s',
      act 2 (Deliver Signal 1)
        {| timerW := Sending 1; interruptW := Sending 2;
           workers := [ {| phase := Done; tokens := 1 |};
                        {| phase := Listening; tokens := 0 |} ] |} = Some s' /\
      workers s' = [ {| phase := Done; tokens := 1 |}; {| phase := Done; tokens := 1 |} ] /\
      timerW s' = Sending 1 /\ interruptW s' = Sending 1) /\
  List.length (windowsChannels Sample.twoChannels) <= 1 + 1.
Proof.
  assert (Hreach : reachable Sample.twoChannels
            {| timerW := Sending 1; interruptW := Sending 2;
               workers := [ {| phase := Done; tokens := 1 |};
                            {| phase := Listening; tokens := 0 |} ] |}).
  { unfold reachable.
    eapply rtc_l; [exists Deadline; reflexivity |].
    eapply rtc_l; [exists Interrupt; reflexivity |].
    eapply rtc_l; [exists (Deliver Timer 0); reflexivity |].
    apply rtc_refl. }
  split.
  - destruct (surplus_sends_block Sample.twoChannels _ Hreach) as (_ & _ & Hgo & _).
    destruct (Hgo Signal 2 1 {| phase := Listening; tokens := 0 |}
                eq_refl eq_refl eq_refl) as (s' & Hact & _).
    exists s'. split; [exact Hact |].
    simpl in Hact. injection Hact as <-. repeat split.
  - destruct (surplus_sends_block Sample.twoChannels _ both_fired_reachable)
      as (_ & _ & _ & _ & Hleft & _).
    apply (Hleft 1 1 eq_refl eq_refl).
Defined.

End BroadcastFacts.

(** ** Increments that do not overlap (lines 203, 251) *)

Module SerialFacts.
Import Race GoInt GoIntFacts Further CounterFacts.

(** A read directly followed by the write of the same worker is one
    increment of [eventCnt]. *)
Lemma atomic_step (i : nat) (s s' : Memory) :
  Forall (fun th => reg th = None) (threads s) ->
  run [i; i] s = Some s' ->
  exists t,
    threads s !! i = Some {| todo := S t; reg := None |} /\
    s' = {| eventCnt := incr (eventCnt s);
            threads := <[i := {| todo := t; reg := None |}]> (threads s) |}.
Proof.
  intros Hregs Hrun. cbn [run] in Hrun.
  destruct (stepThread i s) as [s1|] eqn:H1; [| discriminate].
  destruct (stepThread i s1) as [s2|] eqn:H2; [| discriminate].
  injection Hrun as <-.
  destruct (stepThread_cases i s s1 H1) as [(t & Hi & ->) | (t & v & Hi & ->)].
  - assert (Hlt : (i < List.length (threads s))%nat) by (eapply lookup_lt_Some; eauto).
    exists t. split; [exact Hi |].
    unfold stepThread in H2. cbn [threads eventCnt] in H2.
    rewrite list_lookup_insert_eq in H2 by exact Hlt.
    injection H2 as <-. rewrite list_insert_insert_eq. reflexivity.
  - rewrite Forall_forall in Hregs.
    specialize (Hregs _ (list_elem_of_lookup_2 _ _ _ Hi)). discriminate.
Qed.

Lemma run_atomic (ids : list nat) : forall (s s' : Memory) (a : Z),
  Forall (fun th => reg th = None) (threads s) ->
  eventCnt s = wrap a ->
  run (atomicSched ids) s = Some s' ->
  Forall (fun th => reg th = None) (threads s') /\
  eventCnt s' = wrap (a + Z.of_nat (List.length ids)) /\
  (todoSum (threads s') + List.length ids = todoSum (threads s))%nat.
Proof.
  induction ids as [|i ids IH]; intros s s' a Hregs Hc Hrun.
  - simpl in Hrun. injection Hrun as <-. simpl.
    rewrite Z.add_0_r. auto.
  - unfold atomicSched in Hrun. rewrite bind_cons in Hrun.
    fold (atomicSched ids) in Hrun.
    rewrite RaceFacts.run_app in Hrun.
    destruct (run [i; i] s) as [s1|] eqn:H1; [| discriminate].
    cbn [mbind option_bind] in Hrun.
    destruct (atomic_step i s s1 Hregs H1) as (t & Hi & ->).
    pose proof (todoSum_insert (threads s) i _ {| todo := t; reg := None |} Hi) as Hsum.
    simpl todo in Hsum.
    assert (Hregs1 : Forall (fun th => reg th = None)
                       (<[i := {| todo := t; reg := None |}]> (threads s)))
      by (apply Forall_insert; [exact Hregs | reflexivity]).
    assert (Hc1 : incr (eventCnt s) = wrap (a + 1))
      by (rewrite Hc; apply incr_wrap).
    destruct (IH {| eventCnt := incr (eventCnt s);
                    threads := <[i := {| todo := t; reg := None |}]> (threads s) |}
                 s' (a + 1) Hregs1 Hc1 Hrun) as (Hregs' & Hc' & Htodo).
    cbn [threads] in Htodo. split; [exact Hregs' |].
    split; [rewrite Hc'; f_equal; simpl List.length; lia |].
    simpl List.length. lia.
Qed.

(** X16.  When no increment is interrupted, nothing is lost, whatever the
    order of the workers: under every schedule in which each read of
    [eventCnt] is directly followed by the write of the same worker, the
    counter holds the number of increments made, no worker is left between
    a read and a write, and once every worker has finished the counter is
    [n * k]. *)
Theorem serialised_increments_count (n k : nat) (ids : list nat) (s : Memory) :
  run (atomicSched ids) (start n k) = Some s ->
  eventCnt s = wrap (Z.of_nat (List.length ids)) /\
  Forall (fun th => reg th = None) (threads s) /\
  (List.length ids <= n * k)%nat /\
  (finished s = true ->
   List.length ids = (n * k)%nat /\ eventCnt s = wrap (Z.of_nat (n * k))).
Proof.
  intros Hrun.
  destruct (run_atomic ids (start n k) s 0) as (Hregs & Hc & Htodo);
    [apply Forall_replicate; reflexivity | reflexivity | exact Hrun |].
  cbn [start threads] in Htodo. rewrite todoSum_replicate in Htodo.
  rewrite Z.add_0_l in Hc.
  split; [exact Hc |]. split; [exact Hregs |]. split; [lia |].
  intros Hfin. unfold finished in Hfin.
  pose proof (finished_todoSum _ Hfin) as Hzero.
  assert (Hlen : List.length ids = (n * k)%nat) by lia.
  split; [exact Hlen |]. rewrite Hc, Hlen. reflexivity.
Qed.

(** Two workers with two events each, taking turns. *)
Lemma serialised_increments_count_witness :
  run [0; 0; 1; 1; 0; 0; 1; 1]%nat (start 2 2)
    = Some {| eventCnt := 4; threads := [fresh 0; fresh 0] |} /\
  wrap (Z.of_nat (List.length [0; 1; 0; 1]%nat)) = 4.
Proof.
  split; [reflexivity |].
  destruct (serialised_increments_count 2 2 [0; 1; 0; 1]%nat
              {| eventCnt := 4; threads := [fresh 0; fresh 0] |} eq_refl)
    as (Hc & _).
  symmetry. exact Hc.
Defined.

End SerialFacts.
